(** * pytype/load_pytd.py: the loader and linker of .pyi modules

    A shallow embedding of [Loader] (module registry, search tiers,
    dependency linking with eviction on failure, lazy completion sweep)
    and the properties of it that the specification states. *)

From Stdlib Require Import Ascii.
From stdpp Require Import base option list strings gmap fin_maps.

Local Open Scope string_scope.
Local Open Scope list_scope.
Local Open Scope nat_scope.

(** ** Python string and path primitives used by the loader *)

Module PyStr.

(** [s.split(sep)] for a one-character separator. *)
Fixpoint split (sep : ascii) (s : string) : list string :=
  match s with
  | EmptyString => [EmptyString]
  | String c s' =>
      if decide (c = sep) then EmptyString :: split sep s'
      else match split sep s' with
           | h :: t => String c h :: t
           | [] => [String c EmptyString]
           end
  end.

(** [sep.join(l)]. *)
Definition join (sep : string) (l : list string) : string :=
  String.concat sep l.

(** [s.rpartition(sep)]: [None] when [sep] does not occur (Python then
    returns [('', '', s)]), else the text before and after the last
    occurrence. *)
Fixpoint rpartition (sep : ascii) (s : string) : option (string * string) :=
  match s with
  | EmptyString => None
  | String c s' =>
      match rpartition sep s' with
      | Some (a, b) => Some (String c a, b)
      | None => if decide (c = sep) then Some (EmptyString, s') else None
      end
  end.

(** [c in s] for a one-character [c]. *)
Fixpoint contains (c : ascii) (s : string) : bool :=
  match s with
  | EmptyString => false
  | String c' s' => if decide (c' = c) then true else contains c s'
  end.

Definition startswith (c : ascii) (s : string) : bool :=
  match s with
  | String c' _ => bool_decide (c' = c)
  | EmptyString => false
  end.

Fixpoint endswith (c : ascii) (s : string) : bool :=
  match s with
  | EmptyString => false
  | String c' EmptyString => bool_decide (c' = c)
  | String _ s' => endswith c s'
  end.

(** [l[0:stop]] for a Python integer [stop] (negative counts from the
    end, both ends clamp). *)
Definition slice_to {A} (l : list A) (stop : Z) : list A :=
  let n := Z.of_nat (length l) in
  let stop' := if (stop <? 0)%Z then Z.max 0 (stop + n) else Z.min stop n in
  take (Z.to_nat stop') l.

(** [os.sep] and [os.path.join] of posixpath. *)
Definition os_sep : ascii := "/"%char.

Definition join2 (path b : string) : string :=
  if startswith os_sep b then b
  else if bool_decide (path = "") || endswith os_sep path then path +:+ b
  else path +:+ "/" +:+ b.

Definition os_path_join (a : string) (p : list string) : string :=
  foldl join2 a p.

End PyStr.

(** ** The declaration-tree substrate

    [pytd] nodes and the visitors of [pytype.pytd.parse.visitors] are not
    part of the loader's file.  The part of a tree the loader's contract
    speaks about, its class definitions and its reference nodes, is
    modelled here; every other pass is a parameter of the [World]. *)

Module Pytd.

(** Modelled from the spec: the link a bound reference node holds is
    missing from the sources; "after binding it holds a shared link to
    the concrete definition object".  A link names the tree that owns
    the definition and the definition, so what is read through it is
    the current state of the target. *)
Record Link := { link_unit : string; link_class : string }.

(** Modelled from the spec: [pytd.ClassType] is missing from the
    sources; a reference node is "a tree node that names a class by
    qualified name", unbound while [cls] is [None]. *)
Record ClassType := { name : string; cls : option Link }.

(** Modelled from the spec: [pytd.TypeDeclUnit] is missing from the
    sources; "a declaration tree describing classes, functions, and
    aliases of that module".  The loader's contract speaks of the class
    definitions and of the reference nodes (wherever they occur); the
    other declarations are carried along for the passes that read and
    rewrite them. *)
Record TypeDeclUnit := {
  unit_name : string;
  classes : list string;
  refs : list ClassType;
  declarations : list string
}.

#[global] Instance Link_eq_dec : EqDecision Link.
Proof. solve_decision. Defined.
#[global] Instance ClassType_eq_dec : EqDecision ClassType.
Proof. solve_decision. Defined.
#[global] Instance TypeDeclUnit_eq_dec : EqDecision TypeDeclUnit.
Proof. solve_decision. Defined.

(** Modelled from the spec: [pytd_utils.EmptyModule] is missing from
    the sources; "synthesize an empty-package tree". *)
Definition EmptyModule (module_name : string) : TypeDeclUnit :=
  {| unit_name := module_name; classes := []; refs := [];
     declarations := [] |}.

#[global] Instance TypeDeclUnit_inhabited : Inhabited TypeDeclUnit :=
  populate (EmptyModule "").

(** The module a qualified name belongs to: the text before its last
    dot, empty for an unqualified name. *)
Definition module_of (qualified : string) : string :=
  match PyStr.rpartition "." qualified with
  | Some (m, _) => m
  | None => ""
  end.

(** Modelled from the spec: [visitors.CollectDependencies] is missing
    from the sources; "collect the set of distinct module names
    referenced by any reference node in this tree".  The set is listed
    in order of first occurrence. *)
Definition CollectDependencies (t : TypeDeclUnit) : list string :=
  remove_dups (omap (λ r, fst <$> PyStr.rpartition "." (name r)) (refs t)).

(** The definition a name resolves to in a lookup map: the tree
    registered for the name's module must define the name. *)
Definition find_class (lookup_map : gmap string TypeDeclUnit)
    (qualified : string) : option Link :=
  t ← lookup_map !! module_of qualified;
  if bool_decide (qualified ∈ classes t)
  then Some {| link_unit := unit_name t; link_class := qualified |}
  else None.

(** Modelled from the spec: [visitors.LookupExternalTypes] is missing
    from the sources; "rewrite every cross-module reference node in the
    current tree to point (by shared reference to the target module's
    tree) at the target".  Nodes of the tree's own module ([self_name])
    and unqualified nodes are left to the intra-module pass. *)
Definition lookup_external (module_map : gmap string TypeDeclUnit)
    (self_name : option string) (r : ClassType) : ClassType :=
  match PyStr.rpartition "." (name r) with
  | None => r
  | Some (m, _) =>
      if bool_decide (self_name = Some m) then r
      else match find_class module_map (name r) with
           | Some l => {| name := name r; cls := Some l |}
           | None => r
           end
  end.

Definition LookupExternalTypes (module_map : gmap string TypeDeclUnit)
    (self_name : option string) (t : TypeDeclUnit) : TypeDeclUnit :=
  {| unit_name := unit_name t; classes := classes t;
     refs := lookup_external module_map self_name <$> refs t;
     declarations := declarations t |}.

(** Modelled from the spec: [visitors.FillInModuleClasses] is missing
    from the sources; "bind every intra-module reference node to the
    concrete definition appearing elsewhere in the same tree" and, with
    the whole registry as lookup map, "a full reference-binding pass".
    It fills the nodes that are still unbound, in place. *)
Definition fill_in (lookup_map : gmap string TypeDeclUnit)
    (r : ClassType) : ClassType :=
  match cls r with
  | Some _ => r
  | None => {| name := name r; cls := find_class lookup_map (name r) |}
  end.

Definition FillInModuleClasses (lookup_map : gmap string TypeDeclUnit)
    (t : TypeDeclUnit) : TypeDeclUnit :=
  {| unit_name := unit_name t; classes := classes t;
     refs := fill_in lookup_map <$> refs t;
     declarations := declarations t |}.

(** Modelled from the spec: [visitors.VerifyLookup] is missing from the
    sources; "verify no reference node remains unbound". *)
Definition bound (r : ClassType) : bool := bool_decide (is_Some (cls r)).

Definition VerifyLookup (t : TypeDeclUnit) : bool := forallb bound (refs t).

End Pytd.

Import Pytd.

(** ** Collaborators and configuration *)

Definition version : Type := (nat * nat)%type.

(** The collaborators the loader calls: the parsers ([builtins.ParsePyTD],
    [builtins.ParsePredefinedPyTD], [typeshed.parse_type_definition]),
    the bootstrap trees, the file system, and the tree passes that leave
    the modelled part of the substrate open.  [ParsePyTD] yields [None]
    when the parser raises; the two stores yield [None] when they have no
    entry, as in Python. *)
Record World := {
  ParsePyTD : string → string → version → option TypeDeclUnit;
  ParsePredefinedPyTD : string → string → version → option TypeDeclUnit;
  parse_type_definition : string → string → version → option TypeDeclUnit;
  GetBuiltinsAndTyping : TypeDeclUnit * TypeDeclUnit;
  path_exists : string → bool;
  path_isdir : string → bool;
  ConvertTypingToNative : version → TypeDeclUnit → TypeDeclUnit;
  SimplifyOptionalParameters : TypeDeclUnit → TypeDeclUnit;
  LookupBuiltins : TypeDeclUnit → TypeDeclUnit → TypeDeclUnit;
  NamedTypeToClassType : TypeDeclUnit → TypeDeclUnit;
  InsertSignatureTemplates : TypeDeclUnit → TypeDeclUnit;
  AdjustTemplates : TypeDeclUnit → TypeDeclUnit → TypeDeclUnit;
  VerifyContainers : TypeDeclUnit → bool;
  Concat : list TypeDeclUnit → string → TypeDeclUnit
}.

(** [config.Options], the fields the loader reads. *)
Record Options := {
  python_version : version;
  pythonpath : list string;
  imports_map : option (gmap string string);
  typeshed : bool
}.

(** ** Exceptions, results and the loader's state *)

Inductive assertion :=
| exists_as_both (module_name filename existing_filename : string)
| pythonpath_checked
| level_ge_1
| no_sep_in_name (module_name : string).

Inductive verification := unbound_reference | malformed_container.

Inductive exn :=
| AssertionError (a : assertion)
| ValueError (msg : string)
| KeyError (key : string)
| DependencyNotFoundError (module_name : string)
| ParseError (filename : string)
| InvariantViolation (v : verification).

Inductive result (A : Type) :=
| Ok (a : A)
| Raise (e : exn)
| OutOfFuel.
Arguments Ok {A} a.
Arguments Raise {A} e.
Arguments OutOfFuel {A}.

#[global] Instance assertion_eq_dec : EqDecision assertion.
Proof. solve_decision. Defined.
#[global] Instance verification_eq_dec : EqDecision verification.
Proof. solve_decision. Defined.
#[global] Instance exn_eq_dec : EqDecision exn.
Proof. solve_decision. Defined.

(** Trees are Python objects: a handle is the identity of one, and the
    heap gives its current content.  Rebinding [module.ast] gives the
    module another handle; a visitor that works in place changes the
    content under the handle. *)
Definition handle : Type := nat.

(** [class Module]; a new module is dirty. *)
Module Mod.
Record Module := {
  module_name : string;
  filename : string;
  ast : handle;
  dirty : bool
}.
End Mod.
Abbreviation Module := Mod.Module.

(** A call to a collaborator that reads the outside world. *)
Inductive event :=
| parsed (filename module_name : string)
| asked_predefined (subdir module_name : string)
| asked_typeshed (subdir module_name : string)
| probed_exists (path : string)
| probed_isdir (path : string).

#[global] Instance event_eq_dec : EqDecision event.
Proof. solve_decision. Defined.

(** The mutable part of a [Loader]: [_modules], [_concatenated], the tree
    objects, and the calls made so far to the parsers and the file system
    (latest first). *)
Record Loader := {
  _modules : gmap string Module;
  _concatenated : option TypeDeclUnit;
  heap : list TypeDeclUnit;
  trace : list event
}.

Definition M (A : Type) : Type := Loader → result A * Loader.

#[global] Instance M_ret : MRet M := λ A a self, (Ok a, self).

#[global] Instance M_bind : MBind M := λ A B f m self,
  match m self with
  | (Ok a, self') => f a self'
  | (Raise e, self') => (Raise e, self')
  | (OutOfFuel, self') => (OutOfFuel, self')
  end.

Definition raise {A} (e : exn) : M A := λ self, (Raise e, self).

Definition out_of_fuel {A} : M A := λ self, (OutOfFuel, self).

(** [try: body except: handler; raise]. *)
Definition try_except {A} (body : M A) (handler : exn → M A) : M A :=
  λ self,
    match body self with
    | (Raise e, self') => handler e self'
    | other => other
    end.

Definition gets {A} (f : Loader → A) : M A := λ self, (Ok (f self), self).

Definition modify (f : Loader → Loader) : M unit := λ self, (Ok tt, f self).

Definition set_modules (f : gmap string Module → gmap string Module) : M unit :=
  modify (λ self, {| _modules := f (_modules self);
                     _concatenated := _concatenated self;
                     heap := heap self; trace := trace self |}).

Definition set_concatenated (c : option TypeDeclUnit) : M unit :=
  modify (λ self, {| _modules := _modules self; _concatenated := c;
                     heap := heap self; trace := trace self |}).

Definition set_heap (f : list TypeDeclUnit → list TypeDeclUnit) : M unit :=
  modify (λ self, {| _modules := _modules self;
                     _concatenated := _concatenated self;
                     heap := f (heap self); trace := trace self |}).

Definition emit (e : event) : M unit :=
  modify (λ self, {| _modules := _modules self;
                     _concatenated := _concatenated self;
                     heap := heap self; trace := e :: trace self |}).

(** A new tree object. *)
Definition new (t : TypeDeclUnit) : M handle :=
  h ← gets (λ self, length (heap self));
  set_heap (λ hp, (hp ++ [t])%list);;
  mret h.

Definition content (self : Loader) (h : handle) : TypeDeclUnit :=
  heap self !!! h.

Definition read (h : handle) : M TypeDeclUnit :=
  gets (λ self, content self h).

Definition write (h : handle) (t : TypeDeclUnit) : M unit :=
  set_heap (λ hp, <[h := t]> hp).

(** [module.ast = ...] and [module.dirty = ...] on the module object
    registered under [key]. *)
Definition set_ast (key : string) (h : handle) : M unit :=
  set_modules (alter (λ m, {| Mod.module_name := Mod.module_name m;
                              Mod.filename := Mod.filename m;
                              Mod.ast := h; Mod.dirty := Mod.dirty m |}) key).

Definition set_dirty (key : string) (d : bool) : M unit :=
  set_modules (alter (λ m, {| Mod.module_name := Mod.module_name m;
                              Mod.filename := Mod.filename m;
                              Mod.ast := Mod.ast m; Mod.dirty := d |}) key).

(** [del self._modules[key]]. *)
Definition del_module (key : string) : M unit :=
  existing ← gets (λ self, _modules self !! key);
  match existing with
  | Some _ => set_modules (delete key)
  | None => raise (KeyError key)
  end.

(** [{name: module.ast for name, module in self._modules.items()}]. *)
Definition module_map (self : Loader) : gmap string TypeDeclUnit :=
  (λ m, content self (Mod.ast m)) <$> _modules self.

Fixpoint for_each {A} (l : list A) (body : A → M unit) : M unit :=
  match l with
  | [] => mret tt
  | x :: l' => body x;; for_each l' body
  end.

(** ** The loader *)

Section Loader.

Context (W : World) (options : Options) (base_module : option string).

(** [Loader.PREFIX], "for pytd files that ship with pytype". *)
Definition PREFIX : string := "pytd:".

(** [os.path.exists] and [os.path.isdir]: each probe is recorded. *)

Definition os_path_exists (path : string) : M bool :=
  emit (probed_exists path);; mret (path_exists W path).

Definition os_path_isdir (path : string) : M bool :=
  emit (probed_isdir path);; mret (path_isdir W path).

(** [Loader.__init__]: the loader, with the two bootstrap modules
    registered and dirty, or the failed assertion on the flags. *)
Definition __init__ : result Loader :=
  let '(builtins, typing) := GetBuiltinsAndTyping W in
  let self :=
    {| _modules :=
         <["typing" :=
             {| Mod.module_name := "typing";
                Mod.filename := PREFIX +:+ "typing";
                Mod.ast := 1; Mod.dirty := true |}]>
         (<["__builtin__" :=
             {| Mod.module_name := "__builtin__";
                Mod.filename := PREFIX +:+ "__builtin__";
                Mod.ast := 0; Mod.dirty := true |}]> ∅);
       _concatenated := None;
       heap := [builtins; typing];
       trace := [] |} in
  match imports_map options with
  | Some _ =>
      if bool_decide (pythonpath options = [""]) then Ok self
      else Raise (AssertionError pythonpath_checked)
  | None => Ok self
  end.

(** [Loader._postprocess_pyi]: "Apply all the PYI transformations we
    need." *)
Definition _postprocess_pyi (ast : TypeDeclUnit) : TypeDeclUnit :=
  let ast := ConvertTypingToNative W (python_version options) ast in
  let ast := SimplifyOptionalParameters W ast in
  let ast := LookupBuiltins W (GetBuiltinsAndTyping W).1 ast in
  let ast := NamedTypeToClassType W ast in
  ast.

Section Recursion.

(** [self._import_name], as called for a dependency. *)
Variable self_import_name : string → M (option handle).

(** [Loader._load_and_resolve_ast_dependencies]: every dependency that
    is not registered is imported, then the references into other
    modules are looked up in all the registered trees. *)
Definition _load_and_resolve_ast_dependencies
    (ast : TypeDeclUnit) (ast_name : option string) : M TypeDeclUnit :=
  let deps := CollectDependencies ast in
  if bool_decide (deps ≠ []) then
    for_each deps (λ name,
      registered ← gets (λ self, bool_decide (is_Some (_modules self !! name)));
      if registered : bool then mret tt
      else
        other_ast ← self_import_name name;
        match other_ast with
        | None => raise (DependencyNotFoundError name)
        | Some _ => mret tt
        end);;
    module_map ← gets module_map;
    mret (LookupExternalTypes module_map ast_name ast)
  else mret ast.

(** [Loader._load_file]: "Load (or retrieve from cache) a module and
    resolve its dependencies."  A [Module] and a tree are objects that
    are never falsy, so [if existing] and [if not ast] ask whether there
    is one.  The handle returned is [module.ast]. *)
Definition _load_file (module_name filename : string)
    (ast : option TypeDeclUnit) : M handle :=
  set_concatenated None;;
  existing ← gets (λ self, _modules self !! module_name);
  match existing with
  | Some existing =>
      if bool_decide (Mod.filename existing ≠ filename)
      then raise (AssertionError
                    (exists_as_both module_name filename
                       (Mod.filename existing)))
      else mret (Mod.ast existing)
  | None =>
      ast ← match ast with
            | Some ast => mret ast
            | None =>
                emit (parsed filename module_name);;
                match ParsePyTD W filename module_name
                        (python_version options) with
                | Some ast => mret ast
                | None => raise (ParseError filename)
                end
            end;
      let ast := _postprocess_pyi ast in
      module_ast ← new ast;
      set_modules
        (<[module_name :=
             {| Mod.module_name := module_name;
                Mod.filename := filename;
                Mod.ast := module_ast; Mod.dirty := true |}]>);;
      try_except
        (resolved ← _load_and_resolve_ast_dependencies ast
                      (Some module_name);
         module_ast ← new resolved;
         set_ast module_name module_ast;;
         let templated := InsertSignatureTemplates W resolved in
         module_ast ← new templated;
         set_ast module_name module_ast;;
         let adjusted := AdjustTemplates W templated templated in
         module_ast ← new adjusted;
         set_ast module_name module_ast;;
         write module_ast
           (FillInModuleClasses
              (<[module_name := ast]> (<["" := ast]> ∅)) adjusted);;
         mret module_ast)
        (λ e, del_module module_name;; raise e)
  end.

(** [Loader._create_empty]. *)
Definition _create_empty (module_name filename : string) : M handle :=
  _load_file module_name filename (Some (EmptyModule module_name)).

(** [Loader._load_pyi]: "Load a pyi from the path." *)
Definition _load_pyi (path module_name : string) : M (option handle) :=
  let load full_path : M (option handle) :=
    found ← os_path_exists full_path;
    if found : bool then
      directory ← os_path_isdir full_path;
      if directory : bool then mret None
      else
        loaded ← _load_file module_name full_path None;
        mret (Some loaded)
    else mret None in
  match imports_map options with
  | Some imports =>
      match imports !! path with
      | Some full_path => load full_path
      | None => mret None
      end
  | None => load (path +:+ ".pyi")
  end.

(** The loop of [Loader._import_file] over [self.options.pythonpath]. *)
Fixpoint _import_file_in (searchdirs : list string)
    (module_name : string) (module_name_split : list string)
    : M (option handle) :=
  match searchdirs with
  | [] => mret None
  | searchdir :: searchdirs =>
      let path := PyStr.os_path_join searchdir module_name_split in
      let init_path := PyStr.os_path_join path ["__init__"] in
      init_ast ← _load_pyi init_path module_name;
      match init_ast with
      | Some _ => mret init_ast
      | None =>
          directory ← os_path_isdir path;
          if directory : bool then
            created ← _create_empty module_name
                        (PyStr.os_path_join path ["__init__.pyi"]);
            mret (Some created)
          else
            file_ast ← _load_pyi path module_name;
            match file_ast with
            | Some _ => mret file_ast
            | None =>
                _import_file_in searchdirs module_name module_name_split
            end
      end
  end.

(** [Loader._import_file]: "try to load an AST, using pythonpath". *)
Definition _import_file (module_name : string)
    (module_name_split : list string) : M (option handle) :=
  _import_file_in (pythonpath options) module_name module_name_split.

(** [Loader._load_builtin]: "Load a pytd/pyi that ships with pytype or
    typeshed." *)
Definition _load_builtin (subdir module_name : string)
    : M (option handle) :=
  let version := python_version options in
  emit (asked_predefined subdir module_name);;
  mod_ ← match ParsePredefinedPyTD W subdir module_name version with
        | Some mod_ => mret (Some mod_)
        | None =>
            if typeshed options then
              emit (asked_typeshed subdir module_name);;
              mret (parse_type_definition W subdir module_name version)
            else mret None
        end;
  match mod_ with
  | Some mod_ =>
      loaded ← _load_file module_name (PREFIX +:+ module_name) (Some mod_);
      mret (Some loaded)
  | None => mret None
  end.

(** The body of [Loader._import_name]: "Load a name like 'sys' or
    'foo.bar.baz'."  The log messages are left out. *)
Definition _import_name_body (module_name : string) : M (option handle) :=
  if PyStr.contains PyStr.os_sep module_name
  then raise (AssertionError (no_sep_in_name module_name))
  else
    mod_ ← _load_builtin "builtins" module_name;
    match mod_ with
    | Some _ => mret mod_
    | None =>
        file_ast ← _import_file module_name
                     (PyStr.split "." module_name);
        match file_ast with
        | Some _ => mret file_ast
        | None =>
            mod_ ← _load_builtin "stdlib" module_name;
            match mod_ with
            | Some _ => mret mod_
            | None => mret None
            end
        end
    end.

End Recursion.

(** [_import_name] calls itself through [_load_file] for every
    dependency that is not registered; [fuel] bounds the depth of that
    nesting. *)
Fixpoint _import_name (fuel : nat) (module_name : string)
    : M (option handle) :=
  match fuel with
  | 0 => out_of_fuel
  | S fuel => _import_name_body (_import_name fuel) module_name
  end.

(** [Loader._finish_ast]: the tree is filled in in place, then
    verified. *)
Definition _finish_ast (ast : handle) : M unit :=
  module_map ← gets module_map;
  tree ← read ast;
  let module_map := <["" := tree]> module_map in
  write ast (FillInModuleClasses module_map tree);;
  tree ← read ast;
  if VerifyLookup tree then
    if VerifyContainers W tree then mret tt
    else raise (InvariantViolation malformed_container)
  else raise (InvariantViolation unbound_reference).

(** [Loader._lookup_all_classes].  Python does not say in which order a
    dict yields its values; here it is the order of the keys in the
    map. *)
Definition _lookup_all_classes : M unit :=
  modules ← gets (λ self, map_to_list (_modules self));
  for_each modules (λ '(name, module),
    if Mod.dirty module then
      _finish_ast (Mod.ast module);;
      set_dirty name false
    else mret tt).

(** [Loader.resolve_ast]: "Resolve the dependencies of an AST, without
    adding it to our modules." *)
Definition resolve_ast (fuel : nat) (ast : TypeDeclUnit) : M handle :=
  let ast := _postprocess_pyi ast in
  ast ← _load_and_resolve_ast_dependencies (_import_name fuel) ast None;
  ast ← new ast;
  _lookup_all_classes;;
  _finish_ast ast;;
  mret ast.

(** [Loader.import_relative_name]: "A name relative to the current
    directory." *)
Definition import_relative_name (fuel : nat) (name : string)
    : M (option handle) :=
  match base_module with
  | None => raise (ValueError "Attempting relative import in non-package.")
  | Some base_module =>
      let path := PyStr.slice_to (PyStr.split "." base_module) (-1) in
      let path := (path ++ [name])%list in
      ast ← _import_name fuel (PyStr.join "." path);
      _lookup_all_classes;;
      mret ast
  end.

(** [Loader.import_relative]: "Import a module relative to our base
    module." *)
Definition import_relative (fuel : nat) (level : Z) : M (option handle) :=
  if bool_decide (level >= 1)%Z then
    match base_module with
    | None =>
        raise (ValueError "Attempting relative import in non-package.")
    | Some base_module =>
        let components := PyStr.split "." base_module in
        let sub_module := PyStr.join "." (PyStr.slice_to components (- level)) in
        ast ← _import_name fuel sub_module;
        _lookup_all_classes;;
        mret ast
    end
  else raise (AssertionError level_ge_1).

(** [Loader.import_name]. *)
Definition import_name (fuel : nat) (module_name : string)
    : M (option handle) :=
  ast ← _import_name fuel module_name;
  _lookup_all_classes;;
  mret ast.


End Loader.

(** ** Reasoning about loader programs *)

Ltac unfold_M :=
  unfold set_ast, set_dirty, del_module, read, write, new, emit, set_heap,
    set_concatenated, set_modules, raise, out_of_fuel, try_except, gets,
    modify, mbind, M_bind, mret, M_ret in *.

Definition with_concatenated (c : option TypeDeclUnit) (self : Loader) : Loader :=
  {| _modules := _modules self; _concatenated := c;
     heap := heap self; trace := trace self |}.

Definition with_events (evs : list event) (self : Loader) : Loader :=
  {| _modules := _modules self; _concatenated := _concatenated self;
     heap := heap self; trace := evs ++ trace self |}.

(** The outcome of a computation that returns a handle, seen by a caller
    that returns [Some] of it. *)
Definition returning_some (out : result handle * Loader)
    : result (option handle) * Loader :=
  match out with
  | (Ok h, self) => (Ok (Some h), self)
  | (Raise e, self) => (Raise e, self)
  | (OutOfFuel, self) => (OutOfFuel, self)
  end.

(** ** The search as a function of the installation

    What [_import_name] asks of the parsers' stores and of the file
    system does not depend on the loader's state, so the search can be
    told apart from the load that follows it.  [first_hit] is the
    specification's "strict tier order, first hit wins"; the tiers below
    are the ones the code asks.  A tier answers a module name with the
    source it has for it, if any: the source identifier and, unless the
    tree is to come from the .pyi parser, the tree.  It also tells which
    collaborators it asked (latest first). *)

Definition source : Type := (string * option TypeDeclUnit)%type.

Definition tier : Type := string → list event * option source.

(** "Strict tier order, first hit wins." *)
Fixpoint first_hit (tiers : list tier) (module_name : string)
    : list event * option source :=
  match tiers with
  | [] => ([], None)
  | t :: tiers =>
      match t module_name with
      | (evs, Some src) => (evs, Some src)
      | (evs, None) =>
          let '(evs', found) := first_hit tiers module_name in
          (evs' ++ evs, found)
      end
  end.

Section Search.

Context (W : World) (options : Options).

(** The definitions that ship with pytype in [subdir], then typeshed's
    when the [typeshed] option is set. *)
Definition bundled (subdir : string) : tier := λ module_name,
  let version := python_version options in
  match ParsePredefinedPyTD W subdir module_name version with
  | Some t =>
      ([asked_predefined subdir module_name],
       Some (PREFIX +:+ module_name, Some t))
  | None =>
      if typeshed options then
        ([asked_typeshed subdir module_name;
          asked_predefined subdir module_name],
         match parse_type_definition W subdir module_name version with
         | Some t => Some (PREFIX +:+ module_name, Some t)
         | None => None
         end)
      else ([asked_predefined subdir module_name], None)
  end.

(** A location on disk is a source when it exists and is no directory. *)
Definition on_disk (full_path : string) : list event * option source :=
  if path_exists W full_path then
    ([probed_isdir full_path; probed_exists full_path],
     if path_isdir W full_path then None else Some (full_path, None))
  else ([probed_exists full_path], None).

(** A probed path: through the remap table when there is one, else the
    file with the .pyi extension. *)
Definition pyi_source (path : string) : list event * option source :=
  match imports_map options with
  | Some imports =>
      match imports !! path with
      | Some full_path => on_disk full_path
      | None => ([], None)
      end
  | None => on_disk (path +:+ ".pyi")
  end.

(** One directory of the search path: the package form, then the
    directory without an initializer, then the plain module file. *)
Definition in_directory (module_name_split : list string)
    (searchdir : string) : tier := λ module_name,
  let path := PyStr.os_path_join searchdir module_name_split in
  let init_path := PyStr.os_path_join path ["__init__"] in
  match pyi_source init_path with
  | (evs, Some src) => (evs, Some src)
  | (evs, None) =>
      if path_isdir W path then
        (probed_isdir path :: evs,
         Some (PyStr.os_path_join path ["__init__.pyi"],
               Some (EmptyModule module_name)))
      else
        let '(evs', found) := pyi_source path in
        (evs' ++ probed_isdir path :: evs, found)
  end.

Definition search_path (module_name_split : list string) : tier :=
  first_hit (in_directory module_name_split <$> pythonpath options).

Definition tiers (module_name : string) : list tier :=
  [bundled "builtins";
   search_path (PyStr.split "." module_name);
   bundled "stdlib"].

Definition locate (module_name : string) : list event * option source :=
  first_hit (tiers module_name) module_name.

(** What the loader does with the answer of the search. *)
Definition load_found (rec : string → M (option handle))
    (module_name : string) (found : list event * option source)
    : M (option handle) := λ self,
  match found with
  | (evs, Some (filename, ast)) =>
      returning_some
        (_load_file W options rec module_name filename ast
           (with_events evs self))
  | (evs, None) => (Ok None, with_events evs self)
  end.

End Search.

(** ** What a load may change

    [extends self self']: every module registered in [self] is still
    registered in [self'], as the same object; a module that is new in
    [self'] is dirty and its tree is an object of the heap; the tree
    objects of [self] have the content they had; no past call to a
    collaborator is forgotten. *)
Record extends (self self' : Loader) : Prop := {
  ext_modules : _modules self ⊆ _modules self';
  ext_new : ∀ n m,
    _modules self' !! n = Some m → _modules self !! n = None →
    Mod.dirty m = true ∧ Mod.ast m < length (heap self');
  ext_heap : heap self `prefix_of` heap self';
  ext_trace : trace self `suffix_of` trace self'
}.

(** The outcome of loading a module that was not registered: on success
    it is registered under the source identifier it was loaded from and
    the handle returned is the one of its tree, an object that did not
    exist before; when an exception leaves the load it is not registered. *)
Definition loaded_fresh (module_name filename : string) (self : Loader)
    (out : result handle * Loader) : Prop :=
  match out.1 with
  | Ok h =>
      (∃ m, _modules out.2 !! module_name = Some m ∧ Mod.ast m = h
            ∧ Mod.filename m = filename ∧ Mod.dirty m = true)
      ∧ length (heap self) ≤ h < length (heap out.2)
  | Raise _ => _modules out.2 !! module_name = None
  | OutOfFuel => True
  end.

(** A relation between the state before and the state after that a
    computation keeps, whatever its outcome. *)
Definition steps (R : relation Loader) {A} (m : M A) : Prop :=
  ∀ self, R self (m self).2.

(** ** The steps of [_load_file] on a module that is not registered *)

(** The tree to load: the one given, else what the parser makes of the
    file (asking it is recorded). *)
Definition obtain (W : World) (options : Options)
    (module_name filename : string) (ast : option TypeDeclUnit)
    : list event * option TypeDeclUnit :=
  match ast with
  | Some ast => ([], Some ast)
  | None =>
      ([parsed filename module_name],
       ParsePyTD W filename module_name (python_version options))
  end.

(** The registry entry is staged: [self._modules[module_name] = module],
    with the postprocessed tree as a new object. *)
Definition staged (module_name filename : string) (ast : TypeDeclUnit)
    (self : Loader) : Loader :=
  {| _modules :=
       <[module_name :=
           {| Mod.module_name := module_name; Mod.filename := filename;
              Mod.ast := length (heap self); Mod.dirty := true |}]>
       (_modules self);
     _concatenated := _concatenated self;
     heap := heap self ++ [ast];
     trace := trace self |}.

Definition with_ast (h : handle) (m : Module) : Module :=
  {| Mod.module_name := Mod.module_name m; Mod.filename := Mod.filename m;
     Mod.ast := h; Mod.dirty := Mod.dirty m |}.

Definition with_dirty (d : bool) (m : Module) : Module :=
  {| Mod.module_name := Mod.module_name m; Mod.filename := Mod.filename m;
     Mod.ast := Mod.ast m; Mod.dirty := d |}.

(** The tree [_load_file] leaves in the module: templates inserted and
    adjusted, then the references into the module itself filled in. *)
Definition finished_tree (W : World) (module_name : string)
    (ast resolved : TypeDeclUnit) : TypeDeclUnit :=
  let templated := InsertSignatureTemplates W resolved in
  let adjusted := AdjustTemplates W templated templated in
  FillInModuleClasses (<[module_name := ast]> (<["" := ast]> ∅)) adjusted.

(** The state after the dependencies are resolved: three more tree
    objects, the module holding the last. *)
Definition linked (W : World) (module_name : string)
    (ast resolved : TypeDeclUnit) (self : Loader) : Loader :=
  {| _modules :=
       alter (with_ast (length (heap self) + 2)) module_name (_modules self);
     _concatenated := _concatenated self;
     heap := heap self ++ [resolved; InsertSignatureTemplates W resolved;
                           finished_tree W module_name ast resolved];
     trace := trace self |}.

(** [del self._modules[module_name]]. *)
Definition evicted (module_name : string) (self : Loader) : Loader :=
  {| _modules := delete module_name (_modules self);
     _concatenated := _concatenated self;
     heap := heap self; trace := trace self |}.

(** The outcome of importing a name that was not registered. *)
Definition imported_fresh (module_name : string) (self : Loader)
    (out : result (option handle) * Loader) : Prop :=
  match out.1 with
  | Ok (Some h) =>
      (∃ m, _modules out.2 !! module_name = Some m ∧ Mod.ast m = h
            ∧ Mod.dirty m = true)
      ∧ length (heap self) ≤ h < length (heap out.2)
  | Ok None => _modules out.2 = _modules self ∧ heap out.2 = heap self
  | Raise _ => _modules out.2 !! module_name = None
  | OutOfFuel => True
  end.

(** ** The completion sweep *)

(** The state invariant of the data model: the tree of every registered
    module is an object of the heap, and "a module's dirty flag is false
    only if every reference node inside it is bound to a concrete
    definition". *)
Definition consistent (self : Loader) : Prop :=
  ∀ n m, _modules self !! n = Some m →
    Mod.ast m < length (heap self)
    ∧ (Mod.dirty m = false → VerifyLookup (content self (Mod.ast m)) = true).

(** Every module of the registry has its dirty flag cleared. *)
Definition all_clean (self : Loader) : Prop :=
  ∀ n m, _modules self !! n = Some m → Mod.dirty m = false.

(** The lookup map of [_finish_ast]: the registry, and the tree itself
    under the empty name. *)
Definition finish_map (self : Loader) (ast : handle)
    : gmap string TypeDeclUnit :=
  <["" := content self ast]> (module_map self).

(** The state after [_finish_ast] has filled in the tree in place. *)
Definition filled (ast : handle) (self : Loader) : Loader :=
  {| _modules := _modules self;
     _concatenated := _concatenated self;
     heap := <[ast := FillInModuleClasses (finish_map self ast)
                        (content self ast)]> (heap self);
     trace := trace self |}.

(** [module.dirty = False] for the module registered under [key]. *)
Definition cleaned (key : string) (self : Loader) : Loader :=
  {| _modules := alter (with_dirty false) key (_modules self);
     _concatenated := _concatenated self;
     heap := heap self; trace := trace self |}.

(** What the sweep may change in the registry: a dirty flag is cleared. *)
Definition sweeps (self self' : Loader) : Prop :=
  ∀ n, _modules self' !! n = _modules self !! n
       ∨ _modules self' !! n = with_dirty false <$> _modules self !! n.

(** The verdict of the two verifications on a tree. *)
Definition verified (W : World) (tree : TypeDeclUnit) : result unit :=
  if VerifyLookup tree then
    if VerifyContainers W tree then Ok tt
    else Raise (InvariantViolation malformed_container)
  else Raise (InvariantViolation unbound_reference).

(** The body of the loop of [_lookup_all_classes]. *)
Definition finish_if_dirty (W : World) (entry : string * Module) : M unit :=
  let '(name, module) := entry in
  if Mod.dirty module then
    _finish_ast W (Mod.ast module);;
    set_dirty name false
  else mret tt.

(** ** The public resolution entry points *)

Inductive public_call :=
| call_import_name (module_name : string)
| call_import_relative (level : Z)
| call_import_relative_name (name : string)
| call_resolve_ast (ast : TypeDeclUnit).

Definition public (W : World) (options : Options)
    (base_module : option string) (fuel : nat) (call : public_call)
    : M (option handle) :=
  match call with
  | call_import_name module_name => import_name W options fuel module_name
  | call_import_relative level =>
      import_relative W options base_module fuel level
  | call_import_relative_name name =>
      import_relative_name W options base_module fuel name
  | call_resolve_ast ast =>
      λ self, returning_some (resolve_ast W options fuel ast self)
  end.

(** Every reference node of every registered module is bound. *)
Definition all_bound (self : Loader) : Prop :=
  ∀ n m, _modules self !! n = Some m →
    VerifyLookup (content self (Mod.ast m)) = true.

(** ** A small installation, for the examples

    A file system with a few .pyi files, two directories without an
    initializer, the null device, and a store of bundled definitions. *)

Module Example.

Definition tree (unit_name : string) (classes : list string)
    (references : list string) : TypeDeclUnit :=
  {| unit_name := unit_name; classes := classes;
     refs := (λ r, {| name := r; cls := None |}) <$> references;
     declarations := [] |}.

Definition files : list (string * TypeDeclUnit) :=
  [("foo.pyi", tree "foo" ["foo.Foo"] ["bar.Bar"; "foo.Foo"]);
   ("bar.pyi", tree "bar" ["bar.Bar"] ["foo.Foo"]);
   ("m.pyi", tree "m" ["m.M"] ["d1.X"; "d2.Y"]);
   ("d1.pyi", tree "d1" ["d1.X"] []);
   ("sys.pyi", tree "sys" ["sys.Shadow"] []);
   ("ign.pyi", tree "ign" ["ign.Real"] [])].

Definition directories : list string := ["a"; "a/b"; "pkg"].

Definition predefined : list (string * string * TypeDeclUnit) :=
  [("builtins", "__builtin__", tree "__builtin__" ["__builtin__.object"] []);
   ("builtins", "typing", tree "typing" ["typing.Any"] []);
   ("builtins", "sys", tree "sys" ["sys.Bundled"] []);
   ("stdlib", "os", tree "os" ["os.Stat"] ["__builtin__.object"])].

Fixpoint assoc {A} (key : string) (l : list (string * A)) : option A :=
  match l with
  | [] => None
  | (k, v) :: l => if decide (k = key) then Some v else assoc key l
  end.

Fixpoint assoc2 {A} (k1 k2 : string) (l : list (string * string * A))
    : option A :=
  match l with
  | [] => None
  | (a, b, v) :: l =>
      if decide (a = k1 ∧ b = k2) then Some v else assoc2 k1 k2 l
  end.

Definition world : World := {|
  ParsePyTD := λ filename module_name _,
    if decide (filename = "/dev/null") then Some (tree module_name [] [])
    else assoc filename files;
  ParsePredefinedPyTD := λ subdir module_name _,
    assoc2 subdir module_name predefined;
  parse_type_definition := λ _ _ _, None;
  GetBuiltinsAndTyping :=
    (tree "__builtin__" ["__builtin__.object"] [],
     tree "typing" ["typing.Any"] []);
  path_exists := λ path,
    bool_decide (is_Some (assoc path files) ∨ path ∈ directories
                 ∨ path = "/dev/null");
  path_isdir := λ path, bool_decide (path ∈ directories);
  ConvertTypingToNative := λ _ t, t;
  SimplifyOptionalParameters := λ t, t;
  LookupBuiltins := λ _ t, t;
  NamedTypeToClassType := λ t, t;
  InsertSignatureTemplates := λ t,
    {| unit_name := unit_name t; classes := classes t; refs := refs t;
       declarations := declarations t ++ ["<templates>"] |};
  AdjustTemplates := λ _ t, t;
  VerifyContainers := λ _, true;
  Concat := λ trees unit_name,
    {| unit_name := unit_name;
       classes := trees ≫= classes;
       refs := trees ≫= refs;
       declarations := trees ≫= declarations |}
|}.

(** No remap table: the search path is the current directory. *)
Definition options : Options :=
  {| python_version := (2, 7); pythonpath := [""];
     imports_map := None; typeshed := false |}.

(** A remap table that sends [ign] to the null device and knows no
    other path. *)
Definition remapped : Options :=
  {| python_version := (2, 7); pythonpath := [""];
     imports_map := Some {[ "ign" := "/dev/null" ]}; typeshed := false |}.

(** The loader after [__init__]. *)
Definition start : Loader :=
  match __init__ world options with
  | Ok self => self
  | _ => {| _modules := ∅; _concatenated := None; heap := []; trace := [] |}
  end.

End Example.

(** ** Relative imports, as the specification words them *)

(** "Drop the last [L] path components of the base path." *)
Definition drop_last_components {A} (L : nat) (components : list A) : list A :=
  Nat.iter L (@removelast A) components.

(** The errors of a relative import that the specification calls a
    usage error: the [ValueError] for a loader without base module and
    the failed assertion on the level. *)
Definition UsageError (e : exn) : Prop :=
  match e with
  | ValueError _ => True
  | AssertionError level_ge_1 => True
  | _ => False
  end.

(** The error the specification calls a registration conflict. *)
Definition RegistrationConflict (e : exn) : Prop :=
  match e with
  | AssertionError (exists_as_both _ _ _) => True
  | _ => False
  end.

(** The discard sentinel of remap tables: "We have /dev/null entries in
    the import_map". *)
Definition dev_null : string := "/dev/null".

(** [module_name] is registered with this source identifier and this
    tree object. *)
Definition registered_as (self : Loader) (module_name filename : string)
    (h : handle) : Prop :=
  ∃ m, _modules self !! module_name = Some m
       ∧ Mod.filename m = filename ∧ Mod.ast m = h.

(** No operation takes a module out of the registry or gives it another
    source or another tree object. *)
Definition keeps (self self' : Loader) : Prop :=
  ∀ module_name filename h,
    registered_as self module_name filename h →
    registered_as self' module_name filename h.

(** ** Completing the trees of the registry *)

(** Every registered tree is an object of the heap whose reference nodes
    are all bound once [_finish_ast] has filled it in. *)
Definition completable (self : Loader) : Prop :=
  ∀ n m, _modules self !! n = Some m →
    Mod.ast m < length (heap self)
    ∧ VerifyLookup
        (FillInModuleClasses (finish_map self (Mod.ast m))
           (content self (Mod.ast m))) = true.

(** What a lookup map tells [find_class] about a module. *)
Definition definitions (t : TypeDeclUnit) : string * list string :=
  (unit_name t, classes t).

(** Two lookup maps that define the same classes under the same names. *)
Definition same_definitions (m1 m2 : gmap string TypeDeclUnit) : Prop :=
  ∀ k, definitions <$> m1 !! k = definitions <$> m2 !! k.

(** The body of the loop of [_load_and_resolve_ast_dependencies]. *)
Definition load_if_missing (rec : string → M (option handle))
    (name : string) : M unit :=
  registered ← gets (λ self, bool_decide (is_Some (_modules self !! name)));
  if registered : bool then mret tt
  else
    other_ast ← rec name;
    match other_ast with
    | None => raise (DependencyNotFoundError name)
    | Some _ => mret tt
    end.

(** Every reference node of [t] names a class that [lookup_map] defines. *)
Definition resolves_in (lookup_map : gmap string TypeDeclUnit)
    (t : TypeDeclUnit) : Prop :=
  ∀ r, r ∈ refs t → is_Some (find_class lookup_map (name r)).

(** The sweep asks no collaborator and leaves the merged view alone. *)
Definition same_trace (self self' : Loader) : Prop :=
  trace self' = trace self.

(** ** Invariants of the loader's state *)

(** A property of the state that a computation keeps, whatever its
    outcome. *)
Definition preserves (I : Loader → Prop) {A} (m : M A) : Prop :=
  ∀ self, I self → I (m self).2.

(** Every module is registered under its own name, its tree is an
    object of the heap, and no two modules hold the same tree object. *)
Definition well_formed (self : Loader) : Prop :=
  (∀ n m, _modules self !! n = Some m →
     Mod.module_name m = n ∧ Mod.ast m < length (heap self))
  ∧ (∀ n n' m m',
       _modules self !! n = Some m → _modules self !! n' = Some m' →
       Mod.ast m = Mod.ast m' → n = n').

(** The merged view is dropped, or it is the one there was and no module
    was added or removed. *)
Definition view_still_valid (self self' : Loader) : Prop :=
  _concatenated self' = None
  ∨ (_concatenated self' = _concatenated self
     ∧ dom (_modules self') = dom (_modules self)).


(** ** The exceptions of a load *)

(** What an exception that leaves a load tells about the installation:
    the failed assertion on the name is raised for a name with a path
    separator; "exists as both" for a source that the search found and
    that differs from the registered one; [DependencyNotFoundError] for
    a name for which no tier has a source; the parser's error for a file
    that the search found and that the parser rejects.  A load raises
    nothing else. *)
Definition load_error (W : World) (options : Options) (e : exn) : Prop :=
  match e with
  | AssertionError (no_sep_in_name module_name) =>
      PyStr.contains PyStr.os_sep module_name = true
  | AssertionError (exists_as_both module_name filename existing) =>
      filename ≠ existing
      ∧ ∃ evs ast, locate W options module_name = (evs, Some (filename, ast))
  | DependencyNotFoundError module_name =>
      PyStr.contains PyStr.os_sep module_name = false
      ∧ (locate W options module_name).2 = None
  | ParseError filename =>
      ∃ evs module_name,
        locate W options module_name = (evs, Some (filename, None))
        ∧ ParsePyTD W filename module_name (python_version options) = None
  | _ => False
  end.

(** The exceptions of the public entry points: those of a load, the
    usage errors of the relative imports, and the failed verifications
    of the sweep. *)
Definition public_error (W : World) (options : Options) (e : exn) : Prop :=
  load_error W options e ∨ UsageError e ∨ ∃ v, e = InvariantViolation v.

(** What the sweep may change: dirty flags are cleared and trees are
    filled in in place; the registry keeps its names, files and tree
    objects, and the trace, the merged view and the number of tree
    objects stay. *)
Definition only_finishes (self self' : Loader) : Prop :=
  sweeps self self'
  ∧ trace self' = trace self
  ∧ _concatenated self' = _concatenated self
  ∧ length (heap self') = length (heap self).

(** * Properties of the loader *)

Section LoadFileFacts.

Context (W : World) (options : Options).
Variable rec : string → M (option handle).

Lemma _load_file_hit module_name filename ast self m :
  _modules self !! module_name = Some m →
  Mod.filename m = filename →
  _load_file W options rec module_name filename ast self
  = (Ok (Mod.ast m), with_concatenated None self).
Proof.
  intros Hm Hf. unfold _load_file. unfold_M. simpl. rewrite Hm.
  rewrite bool_decide_eq_false_2; [done | by intros ?].
Qed.

Lemma _load_file_conflict module_name filename ast self m :
  _modules self !! module_name = Some m →
  Mod.filename m ≠ filename →
  _load_file W options rec module_name filename ast self
  = (Raise (AssertionError
              (exists_as_both module_name filename (Mod.filename m))),
     with_concatenated None self).
Proof.
  intros Hm Hf. unfold _load_file. unfold_M. simpl. rewrite Hm.
  by rewrite bool_decide_eq_true_2.
Qed.

End LoadFileFacts.

Lemma with_events_nil self : with_events [] self = self.
Proof. by destruct self. Qed.

Lemma with_events_app evs evs' self :
  with_events evs' (with_events evs self) = with_events (evs' ++ evs) self.
Proof. unfold with_events. simpl. by rewrite (assoc_L (++)). Qed.


(** ** The loader's search is the tiers in order, followed by one load *)

Section SearchFacts.

Context (W : World) (options : Options).
Variable rec : string → M (option handle).

Lemma load_found_more module_name evs evs' src self :
  load_found W options rec module_name (evs', src) (with_events evs self)
  = load_found W options rec module_name (evs' ++ evs, src) self.
Proof.
  unfold load_found. destruct src as [[filename ast]|];
    by rewrite with_events_app.
Qed.

Lemma emit_with_events e self :
  emit e self = (Ok tt, with_events [e] self).
Proof. done. Qed.

Lemma _load_pyi_found path module_name self :
  _load_pyi W options rec path module_name self
  = load_found W options rec module_name (pyi_source W options path) self.
Proof.
  assert (Hload : ∀ full_path,
    (found ← os_path_exists W full_path;
     if found : bool then
       directory ← os_path_isdir W full_path;
       if directory : bool then mret None
       else
         loaded ← _load_file W options rec module_name full_path None;
         mret (Some loaded)
     else mret None) self
    = load_found W options rec module_name (on_disk W full_path) self).
  { intros full_path. unfold on_disk, os_path_exists, os_path_isdir, load_found.
    unfold_M. simpl.
    destruct (path_exists W full_path); simpl; [|done].
    destruct (path_isdir W full_path); simpl; [done|].
    unfold with_events at 1. simpl. unfold with_events. simpl.
    by destruct (_load_file _ _ _ _ _ _ _) as [[?|?|] ?]. }
  unfold _load_pyi, pyi_source.
  destruct (imports_map options) as [imports|]; [|apply Hload].
  destruct (imports !! path) as [full_path|]; [apply Hload|].
  unfold load_found. by rewrite with_events_nil.
Qed.


Lemma bind_eq {A B} (m : M A) (f : A → M B) self :
  (m ≫= f) self
  = match m self with
    | (Ok a, self') => f a self'
    | (Raise e, self') => (Raise e, self')
    | (OutOfFuel, self') => (OutOfFuel, self')
    end.
Proof. done. Qed.

Lemma os_path_isdir_eq path self :
  os_path_isdir W path self
  = (Ok (path_isdir W path), with_events [probed_isdir path] self).
Proof. done. Qed.

Lemma os_path_exists_eq path self :
  os_path_exists W path self
  = (Ok (path_exists W path), with_events [probed_exists path] self).
Proof. done. Qed.

Lemma load_found_some module_name evs filename ast self :
  load_found W options rec module_name (evs, Some (filename, ast)) self
  = returning_some
      (_load_file W options rec module_name filename ast
         (with_events evs self)).
Proof. done. Qed.

Lemma load_found_none module_name evs self :
  load_found W options rec module_name (evs, None) self
  = (Ok None, with_events evs self).
Proof. done. Qed.

Lemma _import_file_in_found searchdirs module_name module_name_split self :
  _import_file_in W options rec searchdirs module_name module_name_split self
  = load_found W options rec module_name
      (first_hit (in_directory W options module_name_split <$> searchdirs)
         module_name) self.
Proof.
  revert self. induction searchdirs as [|searchdir searchdirs IH]; intros self.
  { cbn [_import_file_in fmap list_fmap first_hit].
    by rewrite load_found_none, with_events_nil. }
  cbn [_import_file_in fmap list_fmap first_hit].
  rewrite bind_eq, _load_pyi_found. unfold in_directory at 1.
  destruct (pyi_source W options _) as [evs [[filename ast]|]] eqn:Hinit.
  { rewrite load_found_some.
    by destruct (_load_file _ _ _ _ _ _ _) as [[?|?|] ?]. }
  rewrite load_found_none, bind_eq, os_path_isdir_eq, with_events_app.
  destruct (path_isdir W _) eqn:Hdir.
  { rewrite bind_eq. unfold _create_empty. rewrite load_found_some. simpl.
    by destruct (_load_file _ _ _ _ _ _ _) as [[?|?|] ?]. }
  rewrite bind_eq, _load_pyi_found.
  destruct (pyi_source W options
              (PyStr.os_path_join searchdir module_name_split))
    as [evs' [[filename ast]|]].
  { rewrite load_found_more, load_found_some. simpl.
    by destruct (_load_file _ _ _ _ _ _ _) as [[?|?|] ?]. }
  rewrite load_found_none, IH.
  destruct (first_hit _ _) as [evs'' found].
  by rewrite with_events_app, load_found_more.
Qed.

Lemma _load_builtin_found subdir module_name self :
  _load_builtin W options rec subdir module_name self
  = load_found W options rec module_name
      (bundled W options subdir module_name) self.
Proof.
  unfold _load_builtin, bundled. rewrite bind_eq, emit_with_events.
  destruct (ParsePredefinedPyTD W _ _ _) as [t|].
  { rewrite load_found_some. repeat (rewrite bind_eq; simpl).
    by destruct (_load_file _ _ _ _ _ _ _) as [[?|?|] ?]. }
  destruct (typeshed options).
  - rewrite !bind_eq, emit_with_events, with_events_app. simpl.
    destruct (parse_type_definition W _ _ _) as [t|].
    + rewrite bind_eq.
      by destruct (_load_file _ _ _ _ _ _ _) as [[?|?|] ?].
    + done.
  - by rewrite bind_eq, load_found_none.
Qed.

(** The body of [_import_name]: the tiers are asked in their order, the
    first source found is loaded, and nothing is loaded when no tier
    has one. *)
Lemma _import_name_body_found module_name self :
  PyStr.contains PyStr.os_sep module_name = false →
  _import_name_body W options rec module_name self
  = load_found W options rec module_name (locate W options module_name) self.
Proof.
  intros Hsep. unfold _import_name_body, locate, tiers. rewrite Hsep.
  cbn [first_hit].
  rewrite bind_eq, _load_builtin_found.
  destruct (bundled W options "builtins" module_name)
    as [evs1 [[filename ast]|]].
  { rewrite load_found_some.
    by destruct (_load_file _ _ _ _ _ _ _) as [[?|?|] ?]. }
  rewrite load_found_none, bind_eq. unfold _import_file.
  rewrite _import_file_in_found. unfold search_path.
  destruct (first_hit (in_directory W options _ <$> _) module_name)
    as [evs2 [[filename ast]|]].
  { rewrite load_found_more, load_found_some.
    by destruct (_load_file _ _ _ _ _ _ _) as [[?|?|] ?]. }
  rewrite load_found_none, with_events_app, bind_eq, _load_builtin_found.
  destruct (bundled W options "stdlib" module_name)
    as [evs3 [[filename ast]|]].
  { rewrite load_found_more, <-(assoc_L (++)), load_found_some.
    by destruct (_load_file _ _ _ _ _ _ _) as [[?|?|] ?]. }
  by rewrite load_found_more, <-(assoc_L (++)), load_found_none.
Qed.

End SearchFacts.

(** ** Loads only add to the registry and to the heap *)

#[global] Instance extends_refl : Reflexive extends.
Proof. intros self. split; [done| |done|done]. intros n m H1 H2. congruence. Qed.

#[global] Instance extends_trans : Transitive extends.
Proof.
  intros s1 s2 s3 [Hm1 Hn1 Hh1 Ht1] [Hm2 Hn2 Hh2 Ht2]. split.
  - by etrans.
  - intros n m H3 H1. destruct (_modules s2 !! n) as [m'|] eqn:H2.
    + assert (m' = m) as ->.
      { eapply lookup_weaken in H2; [|exact Hm2]. congruence. }
      destruct (Hn1 n m H2 H1) as [? ?]. split; [done|].
      apply prefix_length in Hh2. lia.
    + by apply (Hn2 n).
  - by etrans.
  - by etrans.
Qed.

#[global] Instance extends_preorder : PreOrder extends.
Proof. split; apply _. Qed.

Lemma extends_with_events evs self : extends self (with_events evs self).
Proof.
  split; simpl; [done| |done|by apply suffix_app_r].
  intros n m H1 H2. congruence.
Qed.

Lemma extends_with_concatenated c self : extends self (with_concatenated c self).
Proof. split; simpl; [done| |done|done]. intros n m H1 H2. congruence. Qed.

Lemma prefix_insert_ge {A} (l k : list A) (i : nat) (x : A) :
  l `prefix_of` k → length l ≤ i → l `prefix_of` <[i:=x]> k.
Proof.
  intros [suf ->] Hi. exists (<[i - length l:=x]> suf).
  by rewrite insert_app_r_alt by done.
Qed.

Section Steps.

Context (R : relation Loader) `{!PreOrder R}.

Lemma steps_ret {A} (a : A) : steps R (mret a).
Proof. intros self. simpl. reflexivity. Qed.

Lemma steps_raise {A} e : steps R (raise (A:=A) e).
Proof. intros self. simpl. reflexivity. Qed.

Lemma steps_gets {A} (f : Loader → A) : steps R (gets f).
Proof. intros self. simpl. reflexivity. Qed.

Lemma steps_bind {A B} (m : M A) (f : A → M B) :
  steps R m → (∀ a, steps R (f a)) → steps R (m ≫= f).
Proof.
  intros Hm Hf self. unfold mbind, M_bind. specialize (Hm self).
  destruct (m self) as [[a|e|] self']; simpl in *; [|done|done].
  etrans; [exact Hm|apply Hf].
Qed.

Lemma steps_for_each {A} (l : list A) (body : A → M unit) :
  (∀ x, steps R (body x)) → steps R (for_each l body).
Proof.
  intros Hbody. induction l as [|x l IH]; simpl.
  - apply steps_ret.
  - apply steps_bind; [apply Hbody|by intros _].
Qed.

Lemma steps_returning_some (m : M handle) self :
  R self (m self).2 → R self (returning_some (m self)).2.
Proof. by destruct (m self) as [[?|?|] ?]. Qed.

End Steps.

Lemma extends_staged module_name filename ast self :
  _modules self !! module_name = None →
  extends self (staged module_name filename ast self).
Proof.
  intros Hm. split; simpl.
  - by apply insert_subseteq.
  - intros n m Hn Hnone. destruct (decide (n = module_name)) as [->|].
    + rewrite lookup_insert_eq in Hn. inversion Hn; subst; simpl.
      split; [done|]. rewrite length_app. simpl. lia.
    + rewrite lookup_insert_ne in Hn by done. congruence.
  - by apply prefix_app_r.
  - done.
Qed.

Lemma extends_linked W module_name ast resolved self0 self :
  _modules self0 !! module_name = None →
  extends self0 self →
  extends self0 (linked W module_name ast resolved self).
Proof.
  intros Hm [Hmod Hnew Hheap Htrace]. split; simpl.
  - apply map_subseteq_spec. intros n m Hn.
    assert (n ≠ module_name) by congruence.
    rewrite lookup_alter_ne by done. by eapply lookup_weaken.
  - intros n m Hn Hnone. rewrite length_app. simpl.
    destruct (decide (n = module_name)) as [->|].
    + rewrite lookup_alter_eq in Hn.
      destruct (_modules self !! module_name) as [m'|] eqn:Hm'; [|done].
      inversion Hn; subst; simpl. destruct (Hnew _ _ Hm' Hm). split; [done|lia].
    + rewrite lookup_alter_ne in Hn by done.
      destruct (Hnew _ _ Hn Hnone). split; [done|lia].
  - by apply prefix_app_r.
  - done.
Qed.

Lemma extends_evicted module_name self0 self :
  _modules self0 !! module_name = None →
  extends self0 self →
  extends self0 (evicted module_name self).
Proof.
  intros Hm [Hmod Hnew Hheap Htrace]. split; simpl; [| |done|done].
  - apply map_subseteq_spec. intros n m Hn.
    assert (n ≠ module_name) by congruence.
    rewrite lookup_delete_ne by done. by eapply lookup_weaken.
  - intros n m Hn Hnone. destruct (decide (n = module_name)) as [->|].
    + by rewrite lookup_delete_eq in Hn.
    + rewrite lookup_delete_ne in Hn by done. by apply (Hnew n).
Qed.

Ltac steps_bind := apply steps_bind; [apply _| |].

Ltac steps_leaf :=
  first [apply steps_ret | apply steps_raise | apply steps_gets]; apply _.

Section LoadSpec.

Context (W : World) (options : Options).
Variable rec : string → M (option handle).
Hypothesis rec_extends : ∀ name, steps extends (rec name).

Lemma _load_and_resolve_ast_dependencies_extends ast ast_name :
  steps extends (_load_and_resolve_ast_dependencies rec ast ast_name).
Proof.
  unfold _load_and_resolve_ast_dependencies. case_bool_decide.
  - steps_bind.
    + apply steps_for_each; [apply _|]. intros name. steps_bind.
      { steps_leaf. }
      intros [|]; [steps_leaf|]. steps_bind.
      { apply rec_extends. }
      intros [?|]; steps_leaf.
    + intros _. steps_bind.
      { steps_leaf. }
      intros ?. steps_leaf.
  - steps_leaf.
Qed.

(** [_load_file] on a module that is not registered, step by step. *)
Lemma _load_file_miss module_name filename ast self :
  _modules self !! module_name = None →
  _load_file W options rec module_name filename ast self
  = match obtain W options module_name filename ast with
    | (evs, None) =>
        (Raise (ParseError filename),
         with_events evs (with_concatenated None self))
    | (evs, Some raw) =>
        let ast := _postprocess_pyi W options raw in
        match _load_and_resolve_ast_dependencies rec ast (Some module_name)
                (staged module_name filename ast
                   (with_events evs (with_concatenated None self))) with
        | (Ok resolved, self') =>
            (Ok (length (heap self') + 2),
             linked W module_name ast resolved self')
        | (Raise e, self') =>
            match _modules self' !! module_name with
            | Some _ => (Raise e, evicted module_name self')
            | None => (Raise (KeyError module_name), self')
            end
        | (OutOfFuel, self') => (OutOfFuel, self')
        end
    end.
Proof.
  intros Hm.
  assert (Hlinked : ∀ ast0 a self',
    (Ok (length ((heap self' ++ [a]) ++ [InsertSignatureTemplates W a])),
     {| _modules :=
          alter (λ m, {| Mod.module_name := Mod.module_name m;
                         Mod.filename := Mod.filename m;
                         Mod.ast := length ((heap self' ++ [a])
                                            ++ [InsertSignatureTemplates W a]);
                         Mod.dirty := Mod.dirty m |}) module_name
            (alter (λ m, {| Mod.module_name := Mod.module_name m;
                            Mod.filename := Mod.filename m;
                            Mod.ast := length (heap self' ++ [a]);
                            Mod.dirty := Mod.dirty m |}) module_name
               (alter (λ m, {| Mod.module_name := Mod.module_name m;
                               Mod.filename := Mod.filename m;
                               Mod.ast := length (heap self');
                               Mod.dirty := Mod.dirty m |}) module_name
                  (_modules self')));
        _concatenated := _concatenated self';
        heap :=
          <[length ((heap self' ++ [a]) ++ [InsertSignatureTemplates W a]) :=
              finished_tree W module_name ast0 a]>
            (((heap self' ++ [a]) ++ [InsertSignatureTemplates W a])
             ++ [AdjustTemplates W (InsertSignatureTemplates W a)
                   (InsertSignatureTemplates W a)]);
        trace := trace self' |})
    = (Ok (length (heap self') + 2), linked W module_name ast0 a self')).
  { intros ast0 a self'.
    replace (length ((heap self' ++ [a]) ++ [InsertSignatureTemplates W a]))
      with (length (heap self') + 2) by (rewrite !length_app; simpl; lia).
    unfold linked. do 2 f_equal.
    - apply map_eq. intros i. destruct (decide (i = module_name)) as [->|].
      + rewrite !lookup_alter_eq. by destruct (_modules self' !! module_name).
      + by rewrite !lookup_alter_ne.
    - rewrite <-!(assoc_L (++)). simpl. by rewrite insert_app_r. }
  unfold _load_file, obtain. unfold_M. simpl. rewrite Hm.
  destruct ast as [raw|]; simpl.
  - change {| _modules := <[module_name := _]> (_modules self);
              _concatenated := None;
              heap := heap self ++ [_postprocess_pyi W options raw];
              trace := trace self |}
      with (staged module_name filename (_postprocess_pyi W options raw)
              (with_events [] (with_concatenated None self))).
    destruct (_load_and_resolve_ast_dependencies _ _ _ _) as [[a|e|] self'].
    + apply Hlinked.
    + by destruct (_modules self' !! module_name).
    + done.
  - destruct (ParsePyTD W _ _ _) as [raw|]; simpl; [|done].
    change {| _modules := <[module_name := _]> (_modules self);
              _concatenated := None;
              heap := heap self ++ [_postprocess_pyi W options raw];
              trace := parsed filename module_name :: trace self |}
      with (staged module_name filename (_postprocess_pyi W options raw)
              (with_events [parsed filename module_name]
                 (with_concatenated None self))).
    destruct (_load_and_resolve_ast_dependencies _ _ _ _) as [[a|e|] self'].
    + apply Hlinked.
    + by destruct (_modules self' !! module_name).
    + done.
Qed.



Lemma _load_file_spec module_name filename ast self :
  extends self (_load_file W options rec module_name filename ast self).2
  ∧ (_modules self !! module_name = None →
     loaded_fresh module_name filename self
       (_load_file W options rec module_name filename ast self)).
Proof.
  destruct (_modules self !! module_name) as [m|] eqn:Hm.
  { split; [|done]. destruct (decide (Mod.filename m = filename)).
    - erewrite _load_file_hit by done. apply extends_with_concatenated.
    - erewrite _load_file_conflict by done. apply extends_with_concatenated. }
  rewrite _load_file_miss by done. unfold loaded_fresh.
  destruct (obtain W options module_name filename ast) as [evs [raw|]];
    simpl.
  2:{ split; [|done]. etrans; [apply extends_with_concatenated|].
      apply extends_with_events. }
  set (ast0 := _postprocess_pyi W options raw).
  set (self0 := with_events evs (with_concatenated None self)).
  assert (H0 : extends self self0).
  { etrans; [apply extends_with_concatenated|]. apply extends_with_events. }
  assert (Hm0 : _modules self0 !! module_name = None) by done.
  pose proof (extends_staged module_name filename ast0 self0 Hm0) as H1.
  pose proof (_load_and_resolve_ast_dependencies_extends ast0
                (Some module_name)
                (staged module_name filename ast0 self0)) as H2.
  destruct (_load_and_resolve_ast_dependencies _ _ _ _)
    as [[resolved|e|] self']; simpl in *.
  - split.
    + etrans; [exact H0|]. apply extends_linked; [done|]. by etrans.
    + intros _. rewrite lookup_alter_eq, length_app. simpl.
      assert (Hin : _modules self' !! module_name
                    = Some {| Mod.module_name := module_name;
                              Mod.filename := filename;
                              Mod.ast := length (heap self0);
                              Mod.dirty := true |}).
      { eapply lookup_weaken; [|apply H2]. simpl. apply lookup_insert_eq. }
      rewrite Hin. simpl. split; [eauto 10|].
      destruct H2 as [_ _ Hh _]. apply prefix_length in Hh.
      simpl in Hh. rewrite length_app in Hh. simpl in Hh. lia.
  - assert (Hin : is_Some (_modules self' !! module_name)).
    { eexists. eapply lookup_weaken; [|apply H2]. simpl.
      apply lookup_insert_eq. }
    destruct Hin as [m ->]. simpl. split.
    + etrans; [exact H0|]. apply extends_evicted; [done|]. by etrans.
    + intros _. apply lookup_delete_eq.
  - split; [|done]. etrans; [exact H0|]. by etrans.
Qed.

Lemma load_found_spec module_name found self :
  extends self (load_found W options rec module_name found self).2
  ∧ (_modules self !! module_name = None →
     imported_fresh module_name self
       (load_found W options rec module_name found self)).
Proof.
  destruct found as [evs [[filename ast]|]].
  - rewrite load_found_some.
    destruct (_load_file_spec module_name filename ast
                (with_events evs self)) as [Hext Hfresh].
    unfold imported_fresh, loaded_fresh in *. simpl in Hfresh.
    destruct (_load_file _ _ _ _ _ _ _) as [[h|e|] self']; simpl in *.
    + split; [etrans; [apply extends_with_events|done]|].
      intros Hm. destruct (Hfresh Hm) as [(m & ? & ? & ? & ?) ?]. eauto 10.
    + split; [etrans; [apply extends_with_events|done]|done].
    + split; [etrans; [apply extends_with_events|done]|done].
  - rewrite load_found_none. split; [apply extends_with_events|done].
Qed.

Lemma _import_name_body_spec module_name self :
  extends self (_import_name_body W options rec module_name self).2
  ∧ (_modules self !! module_name = None →
     imported_fresh module_name self
       (_import_name_body W options rec module_name self)).
Proof.
  destruct (PyStr.contains PyStr.os_sep module_name) eqn:Hsep.
  - unfold _import_name_body. rewrite Hsep. by split.
  - rewrite _import_name_body_found by done. apply load_found_spec.
Qed.

End LoadSpec.

Lemma _import_name_extends W options fuel module_name :
  steps extends (_import_name W options fuel module_name).
Proof.
  revert module_name. induction fuel as [|fuel IH]; intros module_name self.
  - done.
  - by apply _import_name_body_spec.
Qed.

Lemma _import_name_spec W options fuel module_name self :
  _modules self !! module_name = None →
  imported_fresh module_name self
    (_import_name W options fuel module_name self).
Proof.
  destruct fuel as [|fuel]; [done|].
  apply _import_name_body_spec. intros name. apply _import_name_extends.
Qed.


(** ** The completion sweep keeps the invariant and clears the flags *)

Lemma fill_in_bound lookup_map r : bound r = true → fill_in lookup_map r = r.
Proof.
  unfold bound, fill_in. intros H%bool_decide_eq_true_1.
  by destruct H as [l ->].
Qed.

Lemma FillInModuleClasses_verified lookup_map t :
  VerifyLookup t = true → FillInModuleClasses lookup_map t = t.
Proof.
  unfold VerifyLookup, FillInModuleClasses. destruct t as [n cs rs ds]. simpl.
  intros H. f_equal. induction rs as [|r rs IH]; [done|].
  simpl in H. apply andb_prop in H as [Hr Hrs].
  rewrite fmap_cons, fill_in_bound by done. f_equal. by apply IH.
Qed.

Lemma content_extends self self' h :
  heap self `prefix_of` heap self' → h < length (heap self) →
  content self' h = content self h.
Proof.
  intros Hp Hh. unfold content.
  destruct (lookup_lt_is_Some_2 (heap self) h Hh) as [t Ht].
  rewrite (list_lookup_total_correct _ _ _ Ht).
  apply list_lookup_total_correct. by eapply prefix_lookup_Some.
Qed.

Lemma consistent_extends self self' :
  extends self self' → consistent self → consistent self'.
Proof.
  intros [Hmod Hnew Hheap _] Hc n m Hn.
  destruct (_modules self !! n) as [m'|] eqn:Hn'.
  - assert (m' = m) as ->.
    { eapply lookup_weaken in Hn'; [|exact Hmod]. congruence. }
    destruct (Hc n m Hn') as [Hlt Hv]. split.
    + apply prefix_length in Hheap. lia.
    + intros Hd. rewrite (content_extends self) by done. auto.
  - destruct (Hnew n m Hn Hn') as [Hd ?]. split; [done|]. congruence.
Qed.

Lemma content_filled_same ast self :
  ast < length (heap self) →
  content (filled ast self) ast
  = FillInModuleClasses (finish_map self ast) (content self ast).
Proof.
  intros Hlt. unfold content at 1. simpl.
  apply list_lookup_total_correct. by apply list_lookup_insert_eq.
Qed.

Lemma content_filled_other ast self h :
  h ≠ ast → content (filled ast self) h = content self h.
Proof.
  intros Hne. unfold content. simpl.
  by rewrite list_lookup_total_insert_ne.
Qed.

Lemma content_filled_invalid ast self :
  length (heap self) ≤ ast → filled ast self = self.
Proof.
  intros Hge. unfold filled. rewrite list_insert_ge by done. by destruct self.
Qed.

Lemma consistent_filled ast self :
  consistent self → consistent (filled ast self).
Proof.
  intros Hc n m Hn. simpl in Hn. destruct (Hc n m Hn) as [Hlt Hv].
  split; [simpl; by rewrite length_insert|].
  intros Hd. specialize (Hv Hd).
  destruct (decide (Mod.ast m = ast)) as [<-|Hne].
  - rewrite content_filled_same by done.
    by rewrite FillInModuleClasses_verified.
  - by rewrite content_filled_other.
Qed.

Lemma consistent_cleaned key self :
  consistent self →
  (∀ m, _modules self !! key = Some m →
        VerifyLookup (content self (Mod.ast m)) = true) →
  consistent (cleaned key self).
Proof.
  intros Hc Hv n m Hn. simpl in Hn.
  destruct (decide (n = key)) as [->|Hne].
  - rewrite lookup_alter_eq in Hn.
    destruct (_modules self !! key) as [m'|] eqn:Hm'; [|done].
    inversion Hn; subst; simpl. destruct (Hc key m' Hm') as [Hlt _].
    split; [done|]. intros _. by apply Hv.
  - rewrite lookup_alter_ne in Hn by done. by apply (Hc n).
Qed.

Lemma _finish_ast_eq W ast self :
  _finish_ast W ast self
  = (verified W (content (filled ast self) ast), filled ast self).
Proof.
  unfold _finish_ast, verified. unfold_M. simpl.
  change {| _modules := _modules self; _concatenated := _concatenated self;
            heap := _; trace := trace self |} with (filled ast self).
  destruct (VerifyLookup _); [|done]. by destruct (VerifyContainers _ _).
Qed.

Lemma finish_if_dirty_eq W name module self :
  finish_if_dirty W (name, module) self
  = if Mod.dirty module then
      match verified W (content (filled (Mod.ast module) self)
                          (Mod.ast module)) with
      | Ok _ => (Ok tt, cleaned name (filled (Mod.ast module) self))
      | Raise e => (Raise e, filled (Mod.ast module) self)
      | OutOfFuel => (OutOfFuel, filled (Mod.ast module) self)
      end
    else (Ok tt, self).
Proof.
  unfold finish_if_dirty. destruct (Mod.dirty module); [|done].
  rewrite bind_eq, _finish_ast_eq. by destruct (verified _ _).
Qed.

Lemma _lookup_all_classes_eq W self :
  _lookup_all_classes W self
  = for_each (map_to_list (_modules self)) (finish_if_dirty W) self.
Proof.
  unfold _lookup_all_classes. rewrite bind_eq. simpl.
  f_equal.
Qed.

#[global] Instance sweeps_preorder : PreOrder sweeps.
Proof.
  split.
  - intros s n. by left.
  - intros s1 s2 s3 H12 H23 n. destruct (H12 n) as [E1|E1], (H23 n) as [E2|E2];
      rewrite E2, E1; [by left|by right|by right|].
    right. by destruct (_modules s1 !! n).
Qed.

Lemma sweeps_cleaned key self : sweeps self (cleaned key self).
Proof.
  intros n. simpl. destruct (decide (n = key)) as [->|].
  - right. by rewrite lookup_alter_eq.
  - left. by rewrite lookup_alter_ne.
Qed.

Lemma sweeps_clean self self' n m :
  sweeps self self' → _modules self !! n = Some m → Mod.dirty m = false →
  ∃ m', _modules self' !! n = Some m' ∧ Mod.dirty m' = false.
Proof.
  intros Hs Hn Hd. destruct (Hs n) as [E|E]; rewrite E, Hn; simpl; eauto.
Qed.

Lemma verified_Ok W tree :
  verified W tree = Ok tt →
  VerifyLookup tree = true ∧ VerifyContainers W tree = true.
Proof.
  unfold verified. destruct (VerifyLookup tree); [|done].
  by destruct (VerifyContainers W tree).
Qed.

Lemma verified_not_OutOfFuel W tree : verified W tree ≠ OutOfFuel.
Proof.
  unfold verified. destruct (VerifyLookup tree); [|done].
  by destruct (VerifyContainers W tree).
Qed.

Lemma sweep_loop W entries :
  NoDup entries.*1 →
  ∀ self,
    consistent self →
    (∀ n m, (n, m) ∈ entries → _modules self !! n = Some m) →
    let out := for_each entries (finish_if_dirty W) self in
    consistent out.2 ∧ sweeps self out.2 ∧ out.1 ≠ OutOfFuel
    ∧ (out.1 = Ok tt →
       ∀ n m, (n, m) ∈ entries →
         ∃ m', _modules out.2 !! n = Some m' ∧ Mod.dirty m' = false).
Proof.
  induction entries as [|[n m] entries IH]; intros Hnd self Hc Hin.
  { simpl. split; [done|]. split; [reflexivity|]. split; [done|].
    intros _ ? ? []%elem_of_nil. }
  rewrite fmap_cons in Hnd. apply NoDup_cons in Hnd as [Hn Hnd].
  cbn [for_each]. rewrite bind_eq, finish_if_dirty_eq.
  assert (Hm : _modules self !! n = Some m) by (apply Hin; left).
  assert (Hrest : ∀ self', (∀ n', n' ≠ n → _modules self' !! n' = _modules self !! n') →
            ∀ n' m', (n', m') ∈ entries → _modules self' !! n' = Some m').
  { intros self' Hsame n' m' Hin'. rewrite Hsame; [apply Hin; by right|].
    intros ->. apply Hn. apply list_elem_of_fmap. by exists (n, m'). }
  destruct (Mod.dirty m) eqn:Hd.
  - destruct (verified W _) as [[]|e|] eqn:Hv.
    + apply verified_Ok in Hv as [Hv _].
      set (self1 := cleaned n (filled (Mod.ast m) self)).
      assert (Hc1 : consistent self1).
      { apply consistent_cleaned; [by apply consistent_filled|].
        intros m0 Hm0. simpl in Hm0. by simplify_eq. }
      assert (Hs1 : sweeps self self1)
        by exact (sweeps_cleaned n (filled (Mod.ast m) self)).
      destruct (IH Hnd self1 Hc1) as (Hc' & Hs' & Hf' & Hok').
      { apply Hrest. intros n' Hne. simpl. by rewrite lookup_alter_ne. }
      split; [done|]. split; [by etrans|]. split; [done|].
      intros Hok n' m' [Heq|Hin']%elem_of_cons; [|by eapply Hok'].
      inversion Heq; subst. eapply (sweeps_clean self1); [done| |].
      * simpl. rewrite lookup_alter_eq, Hm. done.
      * done.
    + simpl. split; [by apply consistent_filled|].
      split; [intros ?; by left|done].
    + by apply verified_not_OutOfFuel in Hv.
  - destruct (IH Hnd self Hc) as (Hc' & Hs' & Hf' & Hok').
    { apply Hrest. done. }
    split; [done|]. split; [done|]. split; [done|].
    intros Hok n' m' [Heq|Hin']%elem_of_cons; [|by eapply Hok'].
    inversion Heq; subst. by eapply sweeps_clean.
Qed.

Lemma _lookup_all_classes_spec W self :
  consistent self →
  let out := _lookup_all_classes W self in
  consistent out.2 ∧ sweeps self out.2 ∧ out.1 ≠ OutOfFuel
  ∧ (out.1 = Ok tt → all_clean out.2).
Proof.
  intros Hc. rewrite _lookup_all_classes_eq.
  destruct (sweep_loop W (map_to_list (_modules self)))
    with (self := self) as (Hc' & Hs & Hf & Hok).
  - apply NoDup_fst_map_to_list.
  - done.
  - intros n m. by rewrite elem_of_map_to_list.
  - split; [done|]. split; [done|]. split; [done|].
    intros Hr n m' Hn.
    destruct (_modules self !! n) as [m|] eqn:Hm.
    + destruct (Hok Hr n m) as (m'' & Hn'' & Hd).
      { by apply elem_of_map_to_list. }
      congruence.
    + destruct (Hs n) as [E|E]; rewrite E, Hm in Hn; done.
Qed.

Lemma extends_new t self : extends self (new t self).2.
Proof.
  split; simpl; [done| |by apply prefix_app_r|done].
  intros n m H1 H2. congruence.
Qed.

Lemma then_sweep W (m : M (option handle)) self :
  steps extends m → consistent self →
  let out := (ast ← m; _lookup_all_classes W;; mret ast) self in
  consistent out.2 ∧ (∀ r, out.1 = Ok r → all_clean out.2).
Proof.
  intros Hm Hc. rewrite bind_eq. specialize (Hm self).
  destruct (m self) as [[a|e|] self1]; simpl in Hm |- *.
  - pose proof (consistent_extends _ _ Hm Hc) as Hc1.
    destruct (_lookup_all_classes_spec W self1 Hc1) as (Hc2 & _ & _ & Hok).
    rewrite bind_eq.
    destruct (_lookup_all_classes W self1) as [[[]|e|] self2]; simpl in *.
    + split; [done|]. intros _ _. by apply Hok.
    + by split.
    + by split.
  - split; [by eapply consistent_extends|done].
  - split; [by eapply consistent_extends|done].
Qed.

Lemma resolve_ast_sweeps W options fuel ast self :
  consistent self →
  let out := resolve_ast W options fuel ast self in
  consistent out.2 ∧ (∀ h, out.1 = Ok h → all_clean out.2).
Proof.
  intros Hc. unfold resolve_ast. rewrite bind_eq.
  pose proof (_load_and_resolve_ast_dependencies_extends
                (_import_name W options fuel)
                (_import_name_extends W options fuel)
                (_postprocess_pyi W options ast) None self) as H1.
  destruct (_load_and_resolve_ast_dependencies _ _ _ _)
    as [[resolved|e|] self1]; simpl in H1 |- *;
    [|split; [by eapply consistent_extends|done]..].
  rewrite bind_eq.
  pose proof (extends_new resolved self1) as H2.
  destruct (new resolved self1) as [[h|e|] self2] eqn:Hnew;
    [|done|done]. simpl in H2.
  assert (Hc2 : consistent self2).
  { eapply consistent_extends; [exact H2|]. by eapply consistent_extends. }
  destruct (_lookup_all_classes_spec W self2 Hc2) as (Hc3 & _ & _ & Hok).
  rewrite bind_eq.
  destruct (_lookup_all_classes W self2) as [[[]|e|] self3]; simpl in *;
    [|by split..].
  rewrite bind_eq, _finish_ast_eq.
  destruct (verified W _) as [[]|e|]; simpl.
  - split; [by apply consistent_filled|]. intros _ _. by apply Hok.
  - split; [by apply consistent_filled|done].
  - split; [by apply consistent_filled|done].
Qed.

Lemma __init___inv W options self :
  __init__ W options = Ok self →
  _modules self
  = <["typing" := {| Mod.module_name := "typing";
                     Mod.filename := "pytd:typing";
                     Mod.ast := 1; Mod.dirty := true |}]>
      (<["__builtin__" := {| Mod.module_name := "__builtin__";
                             Mod.filename := "pytd:__builtin__";
                             Mod.ast := 0; Mod.dirty := true |}]> ∅)
  ∧ heap self = [(GetBuiltinsAndTyping W).1; (GetBuiltinsAndTyping W).2]
  ∧ _concatenated self = None ∧ trace self = [].
Proof.
  unfold __init__. destruct (GetBuiltinsAndTyping W) as [b t].
  destruct (imports_map options); [case_bool_decide|];
    intros Heq; inversion Heq; by subst.
Qed.

Lemma __init___consistent W options self :
  __init__ W options = Ok self → consistent self.
Proof.
  intros Hinit n m Hn. apply __init___inv in Hinit as (Hm & Hh & _).
  rewrite Hm in Hn. rewrite Hh.
  destruct (decide (n = "typing")) as [->|].
  { rewrite lookup_insert_eq in Hn. inversion Hn; subst; simpl.
    split; [lia|done]. }
  rewrite lookup_insert_ne in Hn by done.
  destruct (decide (n = "__builtin__")) as [->|].
  { rewrite lookup_insert_eq in Hn. inversion Hn; subst; simpl.
    split; [lia|done]. }
  by rewrite lookup_insert_ne in Hn.
Qed.

Lemma public_sweeps W options base_module fuel call self :
  consistent self →
  let out := public W options base_module fuel call self in
  consistent out.2 ∧ (∀ r, out.1 = Ok r → all_clean out.2).
Proof.
  intros Hc. destruct call as [module_name|level|name|ast]; simpl.
  - apply then_sweep; [apply _import_name_extends|done].
  - unfold import_relative. case_bool_decide; [|by split].
    destruct base_module as [base|]; [|by split].
    apply then_sweep; [apply _import_name_extends|done].
  - unfold import_relative_name. destruct base_module as [base|]; [|by split].
    apply then_sweep; [apply _import_name_extends|done].
  - destruct (resolve_ast_sweeps W options fuel ast self Hc) as [H1 H2].
    destruct (resolve_ast W options fuel ast self) as [[h|e|] self'];
      simpl in *; split; try done. intros _ _. by eapply H2.
Qed.

(** ** Relative imports *)

Lemma removelast_take {A} (l : list A) : removelast l = take (length l - 1) l.
Proof.
  rewrite removelast_firstn_len. f_equal. lia.
Qed.

Lemma drop_last_components_take {A} (L : nat) (l : list A) :
  drop_last_components L l = take (length l - L) l.
Proof.
  unfold drop_last_components. induction L as [|L IH]; simpl.
  - by rewrite Nat.sub_0_r, firstn_all.
  - rewrite IH, removelast_take, take_take, length_take. f_equal. lia.
Qed.

Lemma slice_to_drop_last {A} (l : list A) (level : Z) :
  (1 ≤ level)%Z →
  PyStr.slice_to l (- level) = drop_last_components (Z.to_nat level) l.
Proof.
  intros Hl. rewrite drop_last_components_take. unfold PyStr.slice_to.
  destruct (Z.ltb_spec (- level) 0); [|lia]. f_equal. lia.
Qed.

(** C9. With a base module and a level [L >= 1], [import_relative] is
    [import_name] of the name obtained by dropping the last [L]
    components of the base ([a.b.c] gives [a.b] for 1 and [a] for 2);
    without a base module it raises [ValueError], with a level below 1
    the assertion fails: both are usage errors and leave the loader as it
    was. *)
Theorem import_relative_drops_components W options fuel self :
  (∀ base level, (1 ≤ level)%Z →
     import_relative W options (Some base) fuel level self
     = import_name W options fuel
         (PyStr.join "."
            (drop_last_components (Z.to_nat level) (PyStr.split "." base)))
         self)
  ∧ import_relative W options (Some "a.b.c") fuel 1 self
    = import_name W options fuel "a.b" self
  ∧ import_relative W options (Some "a.b.c") fuel 2 self
    = import_name W options fuel "a" self
  ∧ (∀ level, (1 ≤ level)%Z →
       ∃ e, import_relative W options None fuel level self = (Raise e, self)
            ∧ UsageError e)
  ∧ (∀ base_module level, (level < 1)%Z →
       ∃ e, import_relative W options base_module fuel level self
            = (Raise e, self)
            ∧ UsageError e).
Proof.
  assert (Hgen : ∀ base level, (1 ≤ level)%Z →
     import_relative W options (Some base) fuel level self
     = import_name W options fuel
         (PyStr.join "."
            (drop_last_components (Z.to_nat level) (PyStr.split "." base)))
         self).
  { intros base level Hl. unfold import_relative, import_name.
    rewrite bool_decide_eq_true_2 by lia. by rewrite slice_to_drop_last. }
  split; [exact Hgen|]. split; [by rewrite Hgen|]. split; [by rewrite Hgen|].
  split.
  - intros level Hl. eexists. unfold import_relative.
    rewrite bool_decide_eq_true_2 by lia. done.
  - intros base_module level Hl. eexists. unfold import_relative.
    rewrite bool_decide_eq_false_2 by lia. done.
Qed.

Lemma import_relative_drops_components_witness :
  import_relative Example.world Example.options (Some "a.b.c") 2 1
    Example.start
  = import_name Example.world Example.options 2 "a.b" Example.start
  ∧ (∃ e, import_relative Example.world Example.options None 2 1
            Example.start = (Raise e, Example.start) ∧ UsageError e)
  ∧ (∃ e, import_relative Example.world Example.options (Some "a.b.c") 2 0
            Example.start = (Raise e, Example.start) ∧ UsageError e).
Proof.
  destruct (import_relative_drops_components Example.world Example.options 2
              Example.start) as (Hgen & _ & _ & Hbase & Hlevel).
  split; [|split].
  - rewrite (Hgen "a.b.c" 1%Z) by lia. reflexivity.
  - apply (Hbase 1%Z). lia.
  - apply (Hlevel (Some "a.b.c") 0%Z). lia.
Defined.

(** ** The cache and the one-source rule *)



(** C8. Loading a name that is registered under another source
    identifier fails with the assertion "exists as both", the
    registration conflict, and leaves the registry as it was; so after
    [x] was loaded from [foo], loading [x] from [bar] raises it.  The
    error is not caught on the way out of [_import_name]: no later tier
    is tried. *)
Theorem second_source_is_a_conflict W options fuel module_name filename self :
  (∀ ast m,
     _modules self !! module_name = Some m → Mod.filename m ≠ filename →
     ∃ e, _load_file W options (_import_name W options fuel)
            module_name filename ast self
          = (Raise e, with_concatenated None self)
          ∧ RegistrationConflict e)
  ∧ (∀ first ast ast' h self',
       first ≠ filename →
       _load_file W options (_import_name W options fuel)
         module_name first ast self = (Ok h, self') →
       _load_file W options (_import_name W options fuel)
         module_name filename ast' self'
       = (Raise (AssertionError (exists_as_both module_name filename first)),
          with_concatenated None self'))
  ∧ (∀ evs ast m,
       PyStr.contains PyStr.os_sep module_name = false →
       locate W options module_name = (evs, Some (filename, ast)) →
       _modules self !! module_name = Some m → Mod.filename m ≠ filename →
       _import_name W options (S fuel) module_name self
       = (Raise (AssertionError
                   (exists_as_both module_name filename (Mod.filename m))),
          with_concatenated None (with_events evs self))).
Proof.
  split; [|split].
  - intros ast m Hm Hf. eexists. split; [by apply _load_file_conflict|done].
  - intros first ast ast' h self' Hne Hload.
    assert (∃ m, _modules self' !! module_name = Some m
                 ∧ Mod.filename m = first) as (m & Hm' & <-).
    { destruct (_modules self !! module_name) as [m|] eqn:Hm.
      - destruct (decide (Mod.filename m = first)) as [Hf|Hf].
        + rewrite (_load_file_hit _ _ _ _ _ _ _ m Hm Hf) in Hload.
          inversion Hload; subst. eauto.
        + by rewrite (_load_file_conflict _ _ _ _ _ _ _ m Hm Hf) in Hload.
      - destruct (_load_file_spec W options (_import_name W options fuel)
                    (_import_name_extends W options fuel)
                    module_name first ast self) as [_ Hfresh].
        specialize (Hfresh Hm). unfold loaded_fresh in Hfresh.
        rewrite Hload in Hfresh. simpl in Hfresh.
        destruct Hfresh as [(m & Hm' & _ & Hf & _) _]. eauto. }
    by apply _load_file_conflict.
  - intros evs ast m Hsep Hloc Hm Hf. simpl.
    rewrite _import_name_body_found, Hloc, load_found_some by done.
    by rewrite (_load_file_conflict _ _ _ _ _ _ (with_events evs self) m Hm Hf).
Qed.

Lemma second_source_is_a_conflict_witness :
  ∃ h self',
    _load_file Example.world Example.options
      (_import_name Example.world Example.options 1)
      "x" "foo" (Some (Example.tree "x" [] [])) Example.start = (Ok h, self')
    ∧ _load_file Example.world Example.options
        (_import_name Example.world Example.options 1)
        "x" "bar" (Some (Example.tree "x" [] [])) self'
      = (Raise (AssertionError (exists_as_both "x" "bar" "foo")),
         with_concatenated None self').
Proof.
  destruct (_load_file Example.world Example.options
              (_import_name Example.world Example.options 1)
              "x" "foo" (Some (Example.tree "x" [] [])) Example.start)
    as [r self'] eqn:Hload.
  assert (Hr : r = Ok 5) by (apply (f_equal fst) in Hload; vm_compute in Hload; congruence).
  subst r. exists 5, self'. split; [reflexivity|].
  destruct (second_source_is_a_conflict Example.world Example.options 1
              "x" "bar" Example.start) as (_ & Hseq & _).
  apply (Hseq "foo" (Some (Example.tree "x" [] []))
           (Some (Example.tree "x" [] [])) 5 self'); [done|exact Hload].
Defined.

(** ** The tiers *)

Lemma bundled_builtins_first W options module_name t :
  ParsePredefinedPyTD W "builtins" module_name (python_version options)
  = Some t →
  locate W options module_name
  = ([asked_predefined "builtins" module_name],
     Some (PREFIX +:+ module_name, Some t)).
Proof.
  intros Ht. unfold locate, tiers. cbn [first_hit].
  unfold bundled at 1. by rewrite Ht.
Qed.

(** C5, as the code has it.  [_import_name] asks the tiers in this order
    and loads the first source found: the bundled definitions of
    [builtins], the directories of the search path in their configured
    order, the bundled definitions of [stdlib].  A name the bundled
    [builtins] definitions have resolves to them whatever the search path
    holds.  The [typeshed] option gates typeshed inside both bundled
    tiers; pytype's own [stdlib] definitions are asked without it. *)
Theorem tiers_are_asked_in_order W options fuel module_name self :
  PyStr.contains PyStr.os_sep module_name = false →
  _import_name W options (S fuel) module_name self
  = load_found W options (_import_name W options fuel) module_name
      (first_hit
         [bundled W options "builtins";
          first_hit (in_directory W options (PyStr.split "." module_name)
                       <$> pythonpath options);
          bundled W options "stdlib"]
         module_name)
      self
  ∧ (∀ t,
       ParsePredefinedPyTD W "builtins" module_name (python_version options)
       = Some t →
       locate W options module_name
       = ([asked_predefined "builtins" module_name],
          Some (PREFIX +:+ module_name, Some t)))
  ∧ (∀ subdir,
       typeshed options = false →
       bundled W options subdir module_name
       = ([asked_predefined subdir module_name],
          (λ t, (PREFIX +:+ module_name, Some t))
            <$> ParsePredefinedPyTD W subdir module_name
                  (python_version options))).
Proof.
  intros Hsep. split; [|split].
  - simpl. by rewrite _import_name_body_found.
  - intros t Ht. by apply bundled_builtins_first.
  - intros subdir Hts. unfold bundled. rewrite Hts.
    by destruct (ParsePredefinedPyTD W subdir module_name _).
Qed.

Lemma tiers_are_asked_in_order_witness :
  locate Example.world Example.options "sys"
  = ([asked_predefined "builtins" "sys"],
     Some ("pytd:sys", Some (Example.tree "sys" ["sys.Bundled"] [])))
  ∧ path_exists Example.world "sys.pyi" = true.
Proof.
  split; [|reflexivity].
  destruct (tiers_are_asked_in_order Example.world Example.options 0 "sys"
              Example.start) as (_ & Hbundled & _); [reflexivity|].
  apply (Hbundled (Example.tree "sys" ["sys.Bundled"] [])). reflexivity.
Defined.

(** C5, as stated, fails where it says that the standard-library tier is
    asked only if enabled: with typeshed off and nothing for [os] in the
    first two tiers, [os] is still found, in pytype's own [stdlib]
    definitions. *)
Lemma stdlib_tier_is_asked_without_typeshed :
  typeshed Example.options = false
  ∧ (bundled Example.world Example.options "builtins" "os").2 = None
  ∧ (search_path Example.world Example.options (PyStr.split "." "os") "os").2
    = None
  ∧ (import_name Example.world Example.options 1 "os" Example.start).1
    = Ok (Some 5).
Proof. repeat split; vm_compute; reflexivity. Qed.

(** ** The remap table *)

Lemma first_hit_found ts module_name src :
  (first_hit ts module_name).2 = Some src →
  ∃ t, t ∈ ts ∧ (t module_name).2 = Some src.
Proof.
  induction ts as [|t ts IH]; [done|]. cbn [first_hit].
  destruct (t module_name) as [evs [src'|]] eqn:Ht.
  - simpl. intros [= ->]. exists t. split; [by left|]. by rewrite Ht.
  - destruct (first_hit ts module_name) as [evs' found]. simpl in *.
    intros Hf. destruct (IH Hf) as (t' & Hin & Ht'). exists t'.
    split; [by right|done].
Qed.

Lemma load_found_returns W options rec module_name found self h :
  (load_found W options rec module_name found self).1 = Ok (Some h) →
  is_Some found.2.
Proof. destruct found as [evs [src|]]; [by eauto|done]. Qed.

Lemma _load_file_parses W options rec module_name filename self :
  _modules self !! module_name = None →
  (∀ name, steps extends (rec name)) →
  parsed filename module_name
  ∈ trace (_load_file W options rec module_name filename None self).2.
Proof.
  intros Hm Hrec. rewrite _load_file_miss by done. simpl.
  destruct (ParsePyTD W filename module_name _) as [raw|]; [|by left].
  pose proof (_load_and_resolve_ast_dependencies_extends rec Hrec
                (_postprocess_pyi W options raw) (Some module_name)
                (staged module_name filename (_postprocess_pyi W options raw)
                   (with_events [parsed filename module_name]
                      (with_concatenated None self)))) as [_ _ _ Ht].
  assert (Hin : parsed filename module_name
                ∈ trace (_load_and_resolve_ast_dependencies rec
                           (_postprocess_pyi W options raw) (Some module_name)
                           (staged module_name filename
                              (_postprocess_pyi W options raw)
                              (with_events [parsed filename module_name]
                                 (with_concatenated None self)))).2).
  { destruct Ht as [k ->]. apply elem_of_app. right. by left. }
  destruct (_load_and_resolve_ast_dependencies _ _ _ _)
    as [[resolved|e|] self']; simpl in *; [done| |done].
  by destruct (_modules self' !! module_name).
Qed.

(** C6, as the code has it.  With a remap table, [_load_pyi] never looks
    for [path + ".pyi"]: a path that is no key of the table is not found,
    and nothing is probed for it; a path is found only if it is a key.
    The search over the path still asks the file system whether the
    module's path is a directory, so what [_import_file] finds is a key
    of the table or a directory on disk. *)
Theorem remap_table_replaces_the_pyi_probe W options rec imports :
  imports_map options = Some imports →
  (∀ path module_name self,
     imports !! path = None →
     _load_pyi W options rec path module_name self = (Ok None, self))
  ∧ (∀ path module_name self h,
       (_load_pyi W options rec path module_name self).1 = Ok (Some h) →
       is_Some (imports !! path))
  ∧ (∀ module_name module_name_split self h,
       (_import_file W options rec module_name module_name_split self).1
       = Ok (Some h) →
       ∃ searchdir,
         searchdir ∈ pythonpath options
         ∧ let path := PyStr.os_path_join searchdir module_name_split in
           is_Some (imports !! PyStr.os_path_join path ["__init__"])
           ∨ path_isdir W path = true
           ∨ is_Some (imports !! path)).
Proof.
  intros Himports.
  assert (Hsrc : ∀ path src,
            (pyi_source W options path).2 = Some src →
            is_Some (imports !! path)).
  { intros path src. unfold pyi_source. rewrite Himports.
    by destruct (imports !! path). }
  split; [|split].
  - intros path module_name self Hnone.
    rewrite _load_pyi_found. unfold pyi_source. rewrite Himports, Hnone.
    by rewrite load_found_none, with_events_nil.
  - intros path module_name self h. rewrite _load_pyi_found.
    intros [src Hs]%load_found_returns. by eapply Hsrc.
  - intros module_name module_name_split self h. unfold _import_file.
    rewrite _import_file_in_found.
    intros [src Hs]%load_found_returns.
    apply first_hit_found in Hs as (t & Hin & Ht).
    apply list_elem_of_fmap in Hin as (searchdir & -> & Hin).
    exists searchdir. split; [done|]. cbv zeta. unfold in_directory in Ht.
    destruct (pyi_source W options
                (PyStr.os_path_join
                   (PyStr.os_path_join searchdir module_name_split)
                   ["__init__"])) as [evs [src'|]] eqn:Hinit.
    { left. apply (Hsrc _ src'). by rewrite Hinit. }
    destruct (path_isdir W _) eqn:Hdir; [by right; left|].
    destruct (pyi_source W options
                (PyStr.os_path_join searchdir module_name_split))
      as [evs' found] eqn:Hfile.
    right; right. apply (Hsrc _ src). rewrite Hfile. exact Ht.
Qed.

Lemma remap_table_replaces_the_pyi_probe_witness :
  _load_pyi Example.world Example.remapped
    (_import_name Example.world Example.remapped 1) "foo" "foo" Example.start
  = (Ok None, Example.start)
  ∧ path_exists Example.world "foo.pyi" = true.
Proof.
  split; [|reflexivity].
  destruct (remap_table_replaces_the_pyi_probe Example.world Example.remapped
              (_import_name Example.world Example.remapped 1)
              {[ "ign" := "/dev/null" ]}) as (Habsent & _ & _);
    [reflexivity|].
  apply Habsent. vm_compute. reflexivity.
Defined.

(** C6, as stated, fails: with a remap table that has no key for [pkg],
    the directory [pkg] on disk is probed and [pkg] resolves, to an empty
    package. *)
Lemma remap_table_does_not_stop_the_directory_probe :
  imports_map Example.remapped = Some {[ "ign" := "/dev/null" ]}
  ∧ ({[ "ign" := "/dev/null" ]} : gmap string string) !! "pkg" = None
  ∧ ({[ "ign" := "/dev/null" ]} : gmap string string) !! "pkg/__init__" = None
  ∧ (_import_file Example.world Example.remapped
       (_import_name Example.world Example.remapped 1) "pkg" ["pkg"]
       Example.start).1 = Ok (Some 5)
  ∧ probed_isdir "pkg"
    ∈ trace (_import_file Example.world Example.remapped
               (_import_name Example.world Example.remapped 1) "pkg" ["pkg"]
               Example.start).2.
Proof.
  split; [reflexivity|]. split; [by vm_compute|]. split; [by vm_compute|].
  split; [by vm_compute|]. vm_compute. left.
Qed.

(** C7, as the code has it ("we *do* want to load them").  When the remap
    table sends a probed path to the null device, which exists and is no
    directory, [_load_pyi] loads the module from the null device: the
    parser is called on it, and a load that succeeds registers the module
    with the null device as its source identifier. *)
Theorem remapped_to_the_null_device_is_loaded
    W options fuel imports path module_name self :
  imports_map options = Some imports →
  imports !! path = Some dev_null →
  path_exists W dev_null = true →
  path_isdir W dev_null = false →
  let out := _load_pyi W options (_import_name W options fuel)
               path module_name self in
  out = returning_some
          (_load_file W options (_import_name W options fuel)
             module_name dev_null None
             (with_events [probed_isdir dev_null; probed_exists dev_null] self))
  ∧ (_modules self !! module_name = None →
     parsed dev_null module_name ∈ trace out.2
     ∧ ∀ h, out.1 = Ok (Some h) →
         ∃ m, _modules out.2 !! module_name = Some m
              ∧ Mod.filename m = dev_null ∧ Mod.ast m = h).
Proof.
  intros Himports Hpath Hexists Hisdir. cbv zeta.
  assert (Heq : _load_pyi W options (_import_name W options fuel)
                  path module_name self
                = returning_some
                    (_load_file W options (_import_name W options fuel)
                       module_name dev_null None
                       (with_events
                          [probed_isdir dev_null; probed_exists dev_null]
                          self))).
  { rewrite _load_pyi_found. unfold pyi_source, on_disk.
    by rewrite Himports, Hpath, Hexists, Hisdir. }
  split; [exact Heq|]. intros Hm. rewrite Heq.
  set (self0 := with_events [probed_isdir dev_null; probed_exists dev_null]
                  self).
  assert (Hm0 : _modules self0 !! module_name = None) by done.
  pose proof (_load_file_parses W options (_import_name W options fuel)
                module_name dev_null self0 Hm0
                (_import_name_extends W options fuel)) as Hparsed.
  destruct (_load_file_spec W options (_import_name W options fuel)
              (_import_name_extends W options fuel)
              module_name dev_null None self0) as [_ Hfresh].
  specialize (Hfresh Hm0). unfold loaded_fresh in Hfresh.
  destruct (_load_file _ _ _ _ _ _ _) as [[h|e|] self']; simpl in *;
    (split; [done|]); intros h' [=]; subst.
  destruct Hfresh as [(m & ? & ? & ? & _) _]. eauto.
Qed.

Lemma remapped_to_the_null_device_is_loaded_witness :
  (_load_pyi Example.world Example.remapped
     (_import_name Example.world Example.remapped 1) "ign" "ign"
     Example.start).1 = Ok (Some 5)
  ∧ parsed dev_null "ign"
    ∈ trace (_load_pyi Example.world Example.remapped
               (_import_name Example.world Example.remapped 1) "ign" "ign"
               Example.start).2.
Proof.
  destruct (remapped_to_the_null_device_is_loaded Example.world
              Example.remapped 1 {[ "ign" := "/dev/null" ]} "ign" "ign"
              Example.start) as [Heq Hloaded];
    [reflexivity|by vm_compute|reflexivity|reflexivity|].
  split.
  - rewrite Heq. vm_compute. reflexivity.
  - apply Hloaded. vm_compute. reflexivity.
Defined.

(** C7, as stated, fails: [ign] is remapped to the null device, a file
    [ign.pyi] exists on disk, and importing [ign] does not answer "not
    found": a module is loaded for it, from the null device. *)
Lemma null_device_entry_loads_a_module :
  imports_map Example.remapped = Some {[ "ign" := dev_null ]}
  ∧ path_exists Example.world "ign.pyi" = true
  ∧ (import_name Example.world Example.remapped 1 "ign" Example.start).1
    = Ok (Some 5)
  ∧ Mod.filename
      <$> _modules (import_name Example.world Example.remapped 1 "ign"
                      Example.start).2 !! "ign"
    = Some dev_null.
Proof. repeat split; by vm_compute. Qed.

(** ** Nothing is removed from the registry by a public call *)

#[global] Instance keeps_preorder : PreOrder keeps.
Proof.
  split.
  - by intros self n f h.
  - intros s1 s2 s3 H12 H23 n f h Hr. by apply H23, H12.
Qed.

Lemma extends_keeps self self' : extends self self' → keeps self self'.
Proof.
  intros [Hmod _ _ _] n f h (m & Hm & Hf & Hh). exists m.
  split; [by eapply lookup_weaken|done].
Qed.

Lemma sweeps_keeps self self' : sweeps self self' → keeps self self'.
Proof.
  intros Hs n f h (m & Hm & Hf & Hh).
  destruct (Hs n) as [E|E]; rewrite Hm in E; simpl in E.
  - by exists m.
  - by exists (with_dirty false m).
Qed.

Lemma steps_weaken (R R' : relation Loader) {A} (m : M A) :
  (∀ self self', R self self' → R' self self') → steps R m → steps R' m.
Proof. intros HR Hm self. apply HR, Hm. Qed.

Lemma finish_if_dirty_sweeps W entry : steps sweeps (finish_if_dirty W entry).
Proof.
  destruct entry as [name module]. intros self. rewrite finish_if_dirty_eq.
  destruct (Mod.dirty module); [|reflexivity].
  destruct (verified W _) as [[]|e|]; simpl.
  - exact (sweeps_cleaned name (filled (Mod.ast module) self)).
  - intros n. by left.
  - intros n. by left.
Qed.

Lemma _lookup_all_classes_sweeps W : steps sweeps (_lookup_all_classes W).
Proof.
  intros self. rewrite _lookup_all_classes_eq.
  apply steps_for_each; [apply _|]. apply finish_if_dirty_sweeps.
Qed.

Lemma _finish_ast_keeps W ast : steps keeps (_finish_ast W ast).
Proof. intros self. rewrite _finish_ast_eq. by intros n f h. Qed.

Lemma then_sweep_keeps W (m : M (option handle)) :
  steps extends m →
  steps keeps (ast ← m; _lookup_all_classes W;; mret ast).
Proof.
  intros Hm. steps_bind.
  - eapply steps_weaken; [apply extends_keeps|done].
  - intros ast. steps_bind.
    + eapply steps_weaken; [apply sweeps_keeps|apply _lookup_all_classes_sweeps].
    + intros _. steps_leaf.
Qed.

Lemma public_keeps W options base_module fuel call :
  steps keeps (public W options base_module fuel call).
Proof.
  destruct call as [module_name|level|name|ast]; simpl.
  - apply then_sweep_keeps, _import_name_extends.
  - unfold import_relative. case_bool_decide; [|steps_leaf].
    destruct base_module as [base|]; [|steps_leaf].
    apply then_sweep_keeps, _import_name_extends.
  - unfold import_relative_name. destruct base_module as [base|]; [|steps_leaf].
    apply then_sweep_keeps, _import_name_extends.
  - intros self. apply steps_returning_some; try apply _.
    revert self. unfold resolve_ast. steps_bind.
    { eapply steps_weaken; [apply extends_keeps|].
      apply _load_and_resolve_ast_dependencies_extends.
      apply _import_name_extends. }
    intros resolved. steps_bind.
    { eapply steps_weaken; [apply extends_keeps|]. intros self.
      apply extends_new. }
    intros h. steps_bind.
    { eapply steps_weaken; [apply sweeps_keeps|].
      apply _lookup_all_classes_sweeps. }
    intros _. steps_bind; [apply _finish_ast_keeps|]. intros _. steps_leaf.
Qed.

(** C10, as the code has it.  A new loader has [__builtin__] and [typing]
    registered, with the bootstrap trees; no public call takes a module
    out of the registry or changes its source or its tree object.
    Importing a registered name goes through the search like any other
    import: when the bundled [builtins] definitions have the name, they
    are asked, and the handle of the registered tree is returned. *)
Theorem bootstrap_modules_stay W options base_module :
  (∀ self,
     __init__ W options = Ok self →
     registered_as self "__builtin__" "pytd:__builtin__" 0
     ∧ registered_as self "typing" "pytd:typing" 1
     ∧ content self 0 = (GetBuiltinsAndTyping W).1
     ∧ content self 1 = (GetBuiltinsAndTyping W).2)
  ∧ (∀ fuel call self module_name filename h,
       registered_as self module_name filename h →
       registered_as (public W options base_module fuel call self).2
         module_name filename h)
  ∧ (∀ fuel module_name self h t,
       PyStr.contains PyStr.os_sep module_name = false →
       registered_as self module_name (PREFIX +:+ module_name) h →
       ParsePredefinedPyTD W "builtins" module_name (python_version options)
       = Some t →
       _import_name W options (S fuel) module_name self
       = (Ok (Some h),
          with_concatenated None
            (with_events [asked_predefined "builtins" module_name] self))).
Proof.
  split; [|split].
  - intros self Hinit. apply __init___inv in Hinit as (Hm & Hh & _).
    unfold registered_as, content. rewrite Hm, Hh.
    split; [|split; [|done]].
    + eexists. rewrite lookup_insert_ne by done.
      rewrite lookup_insert_eq. done.
    + eexists. rewrite lookup_insert_eq. done.
  - intros fuel call self module_name filename h.
    apply (public_keeps W options base_module fuel call self).
  - intros fuel module_name self h t Hsep (m & Hm & Hf & Hh) Ht.
    pose proof (bundled_builtins_first W options module_name t Ht) as Hloc.
    simpl. rewrite _import_name_body_found, Hloc, load_found_some by done.
    rewrite (_load_file_hit _ _ _ _ _ _
               (with_events [asked_predefined "builtins" module_name] self)
               m Hm Hf).
    simpl. by rewrite Hh.
Qed.

Lemma bootstrap_modules_stay_witness :
  registered_as
    (public Example.world Example.options (Some "a.b.c") 3
       (call_import_name "foo") Example.start).2
    "__builtin__" "pytd:__builtin__" 0
  ∧ _import_name Example.world Example.options 1 "typing" Example.start
    = (Ok (Some 1),
       with_concatenated None
         (with_events [asked_predefined "builtins" "typing"] Example.start)).
Proof.
  destruct (bootstrap_modules_stay Example.world Example.options
              (Some "a.b.c")) as (Hinit & Hkeep & Himport).
  destruct (Hinit Example.start) as (Hb & Ht & _); [reflexivity|].
  split.
  - apply Hkeep. exact Hb.
  - apply (Himport 0 "typing" Example.start 1
             (Example.tree "typing" ["typing.Any"] []));
      [reflexivity|exact Ht|reflexivity].
Defined.

(** C10, as stated, fails where it says that importing [__builtin__] or
    [typing] consults no search tier: the import of [__builtin__] asks
    the bundled definitions for it before the registry is looked at. *)
Lemma importing_a_bootstrap_module_asks_the_bundled_tier :
  trace Example.start = []
  ∧ import_name Example.world Example.options 1 "__builtin__" Example.start
    = (Ok (Some 0),
       (import_name Example.world Example.options 1 "__builtin__"
          Example.start).2)
  ∧ trace (import_name Example.world Example.options 1 "__builtin__"
             Example.start).2
    = [asked_predefined "builtins" "__builtin__"].
Proof. repeat split; by vm_compute. Qed.

(** ** A failed load *)

Lemma for_each_finish_raises W entries self e :
  (for_each entries (finish_if_dirty W) self).1 = Raise e →
  ∃ v, e = InvariantViolation v.
Proof.
  revert self. induction entries as [|[n m] entries IH]; intros self; [done|].
  cbn [for_each]. rewrite bind_eq, finish_if_dirty_eq.
  destruct (Mod.dirty m); [|apply IH].
  unfold verified. destruct (VerifyLookup _).
  - destruct (VerifyContainers W _); [apply IH|].
    simpl. intros [= <-]. eauto.
  - simpl. intros [= <-]. eauto.
Qed.






(** C4.  In every state a loader reaches, a module's dirty flag is false
    only if every reference node of its tree is bound: this holds of a
    new loader and every public entry point keeps it, whatever its
    outcome.  When a public entry point returns, the sweep has run: every
    module of the registry has its dirty flag cleared, hence every
    reference node of every registered tree is bound. *)
Theorem public_calls_sweep_before_returning W options base_module :
  (∀ self, __init__ W options = Ok self → consistent self)
  ∧ (∀ fuel call self,
       consistent self →
       let out := public W options base_module fuel call self in
       consistent out.2
       ∧ (∀ r, out.1 = Ok r → all_clean out.2 ∧ all_bound out.2)).
Proof.
  split; [apply __init___consistent|].
  intros fuel call self Hc.
  destruct (public_sweeps W options base_module fuel call self Hc)
    as [Hc' Hclean].
  split; [done|]. intros r Hr. split; [by eapply Hclean|].
  intros n m Hm. apply (Hc' n m Hm). by eapply Hclean.
Qed.

Lemma public_calls_sweep_before_returning_witness :
  consistent Example.start
  ∧ all_clean
      (public Example.world Example.options None 3 (call_import_name "foo")
         Example.start).2
  ∧ all_bound
      (public Example.world Example.options None 3 (call_import_name "foo")
         Example.start).2.
Proof.
  destruct (public_calls_sweep_before_returning Example.world Example.options
              None) as [Hinit Hcall].
  assert (Hc : consistent Example.start) by (apply Hinit; reflexivity).
  split; [exact Hc|].
  destruct (Hcall 3 (call_import_name "foo") Example.start Hc) as [_ Hok].
  apply (Hok (Some 9)). vm_compute. reflexivity.
Defined.

(** ** Binding: what the lookup map must hold *)

Lemma find_class_ext m1 m2 q :
  same_definitions m1 m2 → find_class m1 q = find_class m2 q.
Proof.
  intros Hs. unfold find_class. specialize (Hs (module_of q)).
  destruct (m1 !! module_of q) as [t1|], (m2 !! module_of q) as [t2|];
    simpl in *; try done.
  unfold definitions in Hs. injection Hs as Hn Hc. by rewrite Hn, Hc.
Qed.

Lemma find_class_weaken m1 m2 q l :
  m1 ⊆ m2 → find_class m1 q = Some l → find_class m2 q = Some l.
Proof.
  intros Hsub. unfold find_class.
  destruct (m1 !! module_of q) as [t|] eqn:Ht; simpl; [|done].
  by rewrite (lookup_weaken _ _ _ _ Ht Hsub).
Qed.

Lemma VerifyLookup_forall t :
  VerifyLookup t = true ↔ ∀ r, r ∈ refs t → is_Some (cls r).
Proof.
  unfold VerifyLookup. rewrite forallb_forall. split; intros H r Hr.
  - apply list_elem_of_In in Hr. specialize (H r Hr).
    by apply bool_decide_eq_true_1 in H.
  - apply bool_decide_eq_true_2, H. by apply list_elem_of_In.
Qed.

Lemma FillInModuleClasses_ext m1 m2 t :
  (∀ q, find_class m1 q = find_class m2 q) →
  FillInModuleClasses m1 t = FillInModuleClasses m2 t.
Proof.
  intros Hq. unfold FillInModuleClasses. f_equal.
  apply list_fmap_ext. intros i r _. unfold fill_in.
  destruct (cls r); [done|]. by rewrite Hq.
Qed.

Lemma FillInModuleClasses_idemp m t :
  FillInModuleClasses m (FillInModuleClasses m t) = FillInModuleClasses m t.
Proof.
  unfold FillInModuleClasses. simpl. f_equal. rewrite <-list_fmap_compose.
  apply list_fmap_ext. intros i r _. simpl. unfold fill_in at 2 3.
  destruct (cls r) as [l|] eqn:Hr.
  - unfold fill_in. by rewrite Hr.
  - unfold fill_in. simpl. by destruct (find_class m (name r)).
Qed.

Lemma FillInModuleClasses_binds m t :
  (∀ r, r ∈ refs t → is_Some (cls r) ∨ is_Some (find_class m (name r))) →
  VerifyLookup (FillInModuleClasses m t) = true.
Proof.
  intros H. apply VerifyLookup_forall. simpl.
  intros r' (r & -> & Hr)%list_elem_of_fmap. unfold fill_in.
  destruct (cls r) as [l|] eqn:Hc; [by rewrite Hc|]. simpl.
  destruct (H r Hr) as [Hb|Hf]; [by rewrite Hc in Hb|done].
Qed.

Lemma FillInModuleClasses_bound_inv m t :
  VerifyLookup (FillInModuleClasses m t) = true →
  ∀ r, r ∈ refs t → is_Some (cls r) ∨ is_Some (find_class m (name r)).
Proof.
  intros H r Hr. rewrite VerifyLookup_forall in H.
  specialize (H (fill_in m r)). simpl in H.
  assert (Hin : fill_in m r ∈ fill_in m <$> refs t)
    by (apply list_elem_of_fmap; eauto).
  specialize (H Hin). unfold fill_in in H.
  destruct (cls r) eqn:Hc; [left; eauto|by right].
Qed.

Lemma FillInModuleClasses_mono m1 m2 t :
  (∀ q, is_Some (find_class m1 q) → is_Some (find_class m2 q)) →
  VerifyLookup (FillInModuleClasses m1 t) = true →
  VerifyLookup (FillInModuleClasses m2 t) = true.
Proof.
  intros Hm H. apply FillInModuleClasses_binds. intros r Hr.
  destruct (FillInModuleClasses_bound_inv m1 t H r Hr); auto.
Qed.

(** ** When the sweep succeeds *)

Lemma module_map_cleaned key self :
  module_map (cleaned key self) = module_map self.
Proof.
  unfold module_map. apply map_eq. intros k. simpl. rewrite !lookup_fmap.
  destruct (decide (k = key)) as [->|].
  - rewrite lookup_alter_eq. by destruct (_modules self !! key).
  - by rewrite lookup_alter_ne.
Qed.

Lemma definitions_content_filled h self x :
  definitions (content (filled h self) x) = definitions (content self x).
Proof.
  destruct (decide (x = h)) as [->|Hne]; [|by rewrite content_filled_other].
  destruct (decide (h < length (heap self))) as [Hlt|Hge].
  - by rewrite content_filled_same.
  - rewrite content_filled_invalid by lia. done.
Qed.

Lemma finish_map_filled h self x :
  same_definitions (finish_map (filled h self) x) (finish_map self x).
Proof.
  intros k. unfold finish_map, module_map.
  destruct (decide (k = "")) as [->|Hne].
  - rewrite !lookup_insert_eq. simpl. f_equal.
    apply definitions_content_filled.
  - rewrite !lookup_insert_ne by done. simpl. rewrite !lookup_fmap.
    destruct (_modules self !! k) as [m|]; simpl; [|done]. f_equal.
    apply definitions_content_filled.
Qed.

Lemma completable_filled h self :
  completable self → completable (filled h self).
Proof.
  intros Hc n m Hm. simpl in Hm. destruct (Hc n m Hm) as [Hlt Hv].
  split; [simpl; by rewrite length_insert|].
  rewrite (FillInModuleClasses_ext _ (finish_map self (Mod.ast m)))
    by (intros q; apply find_class_ext, finish_map_filled).
  destruct (decide (Mod.ast m = h)) as [<-|Hne].
  - rewrite content_filled_same by done.
    by rewrite FillInModuleClasses_idemp.
  - by rewrite content_filled_other.
Qed.

Lemma completable_cleaned key self :
  completable self → completable (cleaned key self).
Proof.
  intros Hc n m Hm. simpl in Hm.
  assert (∃ m0, _modules self !! n = Some m0 ∧ Mod.ast m0 = Mod.ast m)
    as (m0 & Hm0 & <-).
  { destruct (decide (n = key)) as [->|Hne].
    - rewrite lookup_alter_eq in Hm.
      destruct (_modules self !! key) as [m0|]; [|done].
      inversion Hm; subst. eauto.
    - rewrite lookup_alter_ne in Hm by done. eauto. }
  unfold finish_map. rewrite module_map_cleaned. by apply (Hc n).
Qed.

Lemma sweep_succeeds W entries :
  (∀ t, VerifyContainers W t = true) →
  ∀ self,
    completable self →
    (∀ n m, (n, m) ∈ entries →
       ∃ n' m', _modules self !! n' = Some m' ∧ Mod.ast m' = Mod.ast m) →
    (for_each entries (finish_if_dirty W) self).1 = Ok tt.
Proof.
  intros Hcontainers.
  induction entries as [|[n m] entries IH]; intros self Hc Hin; [done|].
  cbn [for_each]. rewrite bind_eq, finish_if_dirty_eq.
  destruct (Mod.dirty m).
  - destruct (Hin n m) as (n' & m' & Hm' & Hast); [by left|].
    destruct (Hc n' m' Hm') as [Hlt Hv]. rewrite Hast in Hlt, Hv.
    unfold verified. rewrite content_filled_same, Hv, Hcontainers by done.
    apply IH.
    + by apply completable_cleaned, completable_filled.
    + intros n0 m0 Hin0. destruct (Hin n0 m0) as (n1 & m1 & Hm1 & Hast1);
        [by right|].
      destruct (decide (n1 = n)) as [->|Hne].
      * exists n, (with_dirty false m1). simpl.
        rewrite lookup_alter_eq, Hm1. done.
      * exists n1, m1. simpl. by rewrite lookup_alter_ne.
  - apply IH; [done|]. intros n0 m0 Hin0. apply (Hin n0). by right.
Qed.

Lemma _lookup_all_classes_succeeds W self :
  (∀ t, VerifyContainers W t = true) →
  completable self →
  (_lookup_all_classes W self).1 = Ok tt.
Proof.
  intros Hcontainers Hc. rewrite _lookup_all_classes_eq.
  apply sweep_succeeds; [done|done|].
  intros n m Hin%elem_of_map_to_list. eauto.
Qed.

(** ** The loop over the dependencies *)

Lemma _load_and_resolve_ast_dependencies_eq rec ast ast_name :
  _load_and_resolve_ast_dependencies rec ast ast_name
  = if bool_decide (CollectDependencies ast ≠ []) then
      for_each (CollectDependencies ast) (load_if_missing rec);;
      module_map ← gets module_map;
      mret (LookupExternalTypes module_map ast_name ast)
    else mret ast.
Proof. done. Qed.

Lemma load_if_missing_registered rec name self :
  is_Some (_modules self !! name) →
  load_if_missing rec name self = (Ok tt, self).
Proof.
  intros Hreg. unfold load_if_missing. rewrite bind_eq. simpl.
  by rewrite bool_decide_eq_true_2.
Qed.

Lemma load_if_missing_loads rec name self h self' :
  _modules self !! name = None →
  rec name self = (Ok (Some h), self') →
  load_if_missing rec name self = (Ok tt, self').
Proof.
  intros Hnone Hrec. unfold load_if_missing. rewrite bind_eq. simpl.
  rewrite bool_decide_eq_false_2 by (rewrite Hnone; by intros [? ?]).
  by rewrite bind_eq, Hrec.
Qed.

Lemma for_each_registered rec names self :
  (∀ d, d ∈ names → is_Some (_modules self !! d)) →
  for_each names (load_if_missing rec) self = (Ok tt, self).
Proof.
  induction names as [|d names IH]; intros Hreg; [done|].
  cbn [for_each]. rewrite bind_eq, load_if_missing_registered
    by (apply Hreg; by left).
  apply IH. intros d' Hd'. apply Hreg. by right.
Qed.

Lemma for_each_one_missing rec names self missing h self' :
  missing ∈ names →
  (∀ d, d ∈ names → d = missing ∨ is_Some (_modules self !! d)) →
  _modules self !! missing = None →
  rec missing self = (Ok (Some h), self') →
  _modules self ⊆ _modules self' →
  is_Some (_modules self' !! missing) →
  for_each names (load_if_missing rec) self = (Ok tt, self').
Proof.
  intros Hin Hnames Hnone Hrec Hsub Hreg.
  induction names as [|d names IH]; [by apply elem_of_nil in Hin|].
  cbn [for_each]. rewrite bind_eq.
  destruct (decide (d = missing)) as [->|Hne].
  - rewrite (load_if_missing_loads _ _ _ h self') by done.
    apply for_each_registered. intros d' Hd'.
    destruct (Hnames d') as [->|[m Hm]]; [by right|done|].
    exists m. by eapply lookup_weaken.
  - destruct (Hnames d) as [?|Hd]; [by left|done|].
    rewrite load_if_missing_registered by done.
    apply IH.
    + apply elem_of_cons in Hin as [?|?]; [congruence|done].
    + intros d' Hd'. apply Hnames. by right.
Qed.

(** ** The states of a load *)

Lemma lookup_linked_eq W module_name ast resolved self :
  _modules (linked W module_name ast resolved self) !! module_name
  = with_ast (length (heap self) + 2) <$> _modules self !! module_name.
Proof. simpl. by rewrite lookup_alter_eq. Qed.

Lemma lookup_linked_ne W module_name ast resolved self n :
  n ≠ module_name →
  _modules (linked W module_name ast resolved self) !! n = _modules self !! n.
Proof. intros Hne. simpl. by rewrite lookup_alter_ne. Qed.

Lemma content_linked_new W module_name ast resolved self :
  content (linked W module_name ast resolved self) (length (heap self) + 2)
  = finished_tree W module_name ast resolved.
Proof.
  unfold content. simpl. apply list_lookup_total_correct.
  rewrite lookup_app_r by lia.
  by replace (length (heap self) + 2 - length (heap self)) with 2 by lia.
Qed.

Lemma content_linked_old W module_name ast resolved self h :
  h < length (heap self) →
  content (linked W module_name ast resolved self) h = content self h.
Proof.
  intros Hlt. apply content_extends; [|done]. simpl. by apply prefix_app_r.
Qed.

Lemma content_staged_new module_name filename ast self :
  content (staged module_name filename ast self) (length (heap self)) = ast.
Proof.
  unfold content. simpl. apply list_lookup_total_correct.
  rewrite lookup_app_r by lia. by rewrite Nat.sub_diag.
Qed.

Lemma name_fill_in lookup_map r : name (fill_in lookup_map r) = name r.
Proof. unfold fill_in. by destruct (cls r). Qed.

Lemma name_lookup_external module_map self_name r :
  name (lookup_external module_map self_name r) = name r.
Proof.
  unfold lookup_external. destruct (PyStr.rpartition "." (name r)) as [[m ?]|];
    [|done].
  case_bool_decide; [done|]. by destruct (find_class module_map (name r)).
Qed.

Lemma find_class_is_Some m1 m2 q :
  (∀ k, classes <$> m1 !! k = classes <$> m2 !! k) →
  is_Some (find_class m1 q) → is_Some (find_class m2 q).
Proof.
  intros Hs. unfold find_class. specialize (Hs (module_of q)).
  destruct (m1 !! module_of q) as [t1|], (m2 !! module_of q) as [t2|];
    simpl in *; try done.
  injection Hs as Hc. rewrite Hc. by case_bool_decide.
Qed.

Lemma module_map_extends self self' :
  extends self self' →
  (∀ n m, _modules self !! n = Some m → Mod.ast m < length (heap self)) →
  module_map self ⊆ module_map self'.
Proof.
  intros [Hmod _ Hheap _] Hvalid. apply map_subseteq_spec. intros k t.
  unfold module_map. rewrite !lookup_fmap.
  destruct (_modules self !! k) as [m|] eqn:Hm; simpl; [|done].
  intros [= <-]. rewrite (lookup_weaken _ _ _ _ Hm Hmod). simpl.
  f_equal. apply content_extends; [done|]. by eapply Hvalid.
Qed.

#[global] Instance same_trace_preorder : PreOrder same_trace.
Proof.
  split; [done|]. intros s1 s2 s3 H12 H23. unfold same_trace in *. congruence.
Qed.

Lemma _lookup_all_classes_same_trace W : steps same_trace (_lookup_all_classes W).
Proof.
  intros self. rewrite _lookup_all_classes_eq.
  apply steps_for_each; [apply _|]. intros [name module] self'.
  rewrite finish_if_dirty_eq. destruct (Mod.dirty module); [|done].
  by destruct (verified W _).
Qed.

(** ** Two modules that reference each other *)

Section Cyclic.

Context (W : World) (options : Options) (fuel : nat).
Variables (A B : string) (self : Loader).
Variables (evsA pA evsB pB : list event) (fA fB : string).
Variables (srcA srcB : option TypeDeclUnit) (rawA rawB : TypeDeclUnit).

(** The trees of [A] and [B] as they are registered. *)
Let tA := _postprocess_pyi W options rawA.
Let tB := _postprocess_pyi W options rawB.

(** Neither module is registered; the search finds a source for each and
    the source gives a tree. *)
Hypothesis A_not_B : A ≠ B.
Hypothesis A_plain : PyStr.contains PyStr.os_sep A = false.
Hypothesis B_plain : PyStr.contains PyStr.os_sep B = false.
Hypothesis A_new : _modules self !! A = None.
Hypothesis B_new : _modules self !! B = None.
Hypothesis A_found : locate W options A = (evsA, Some (fA, srcA)).
Hypothesis B_found : locate W options B = (evsB, Some (fB, srcB)).
Hypothesis A_obtained : obtain W options A fA srcA = (pA, Some rawA).
Hypothesis B_obtained : obtain W options B fB srcB = (pB, Some rawB).

(** The trees reference each other, and beside each other only modules
    that are registered. *)
Hypothesis A_needs_B : B ∈ CollectDependencies tA.
Hypothesis B_needs_A : A ∈ CollectDependencies tB.
Hypothesis A_needs : ∀ d, d ∈ CollectDependencies tA →
  d = A ∨ d = B ∨ is_Some (_modules self !! d).
Hypothesis B_needs : ∀ d, d ∈ CollectDependencies tB →
  d = A ∨ d = B ∨ is_Some (_modules self !! d).

(** The state when [A] is staged and [B] is about to be imported. *)
Let self_A : Loader :=
  staged A fA tA (with_events pA (with_concatenated None (with_events evsA self))).

(** The state when [B] is staged as well. *)
Let self_AB : Loader :=
  staged B fB tB
    (with_events pB (with_concatenated None (with_events evsB self_A))).

Let resolved_B : TypeDeclUnit :=
  LookupExternalTypes (module_map self_AB) (Some B) tB.

(** The state when the load of [B] has returned. *)
Let self_B : Loader := linked W B tB resolved_B self_AB.

Let resolved_A : TypeDeclUnit :=
  LookupExternalTypes (module_map self_B) (Some A) tA.

(** The state when the load of [A] has returned. *)
Let self_BA : Loader := linked W A tA resolved_A self_B.

Lemma cyclic_inner_load :
  _import_name W options (S fuel) B self_A
  = (Ok (Some (length (heap self_AB) + 2)), self_B).
Proof.
  cbn [_import_name]. rewrite _import_name_body_found by done.
  rewrite B_found, load_found_some.
  rewrite _load_file_miss.
  2:{ simpl. by rewrite lookup_insert_ne. }
  rewrite B_obtained. cbv zeta. fold tB.
  change (staged B fB tB _) with self_AB.
  rewrite _load_and_resolve_ast_dependencies_eq.
  rewrite bool_decide_eq_true_2.
  2:{ intros Hnil. rewrite Hnil in B_needs_A. by apply elem_of_nil in B_needs_A. }
  rewrite bind_eq, for_each_registered.
  2:{ intros d Hd. simpl.
      destruct (decide (d = B)) as [->|HdB]; [rewrite lookup_insert_eq; eauto|].
      rewrite lookup_insert_ne by done.
      destruct (decide (d = A)) as [->|HdA]; [rewrite lookup_insert_eq; eauto|].
      rewrite lookup_insert_ne by done.
      destruct (B_needs d Hd) as [?|[?|?]]; done. }
  done.
Qed.

Lemma cyclic_outer_load :
  _import_name W options (S (S fuel)) A self
  = (Ok (Some (length (heap self_B) + 2)), self_BA).
Proof.
  change (_import_name W options (S (S fuel)) A self)
    with (_import_name_body W options (_import_name W options (S fuel)) A self).
  rewrite _import_name_body_found by done.
  rewrite A_found, load_found_some.
  rewrite _load_file_miss by done.
  rewrite A_obtained. cbv zeta. fold tA.
  change (staged A fA tA _) with self_A.
  rewrite _load_and_resolve_ast_dependencies_eq.
  rewrite bool_decide_eq_true_2.
  2:{ intros Hnil. rewrite Hnil in A_needs_B. by apply elem_of_nil in A_needs_B. }
  rewrite bind_eq.
  rewrite (for_each_one_missing _ _ _ B (length (heap self_AB) + 2) self_B).
  - done.
  - done.
  - intros d Hd. simpl.
    destruct (decide (d = A)) as [->|HdA]; [rewrite lookup_insert_eq; eauto|].
    rewrite lookup_insert_ne by done.
    destruct (A_needs d Hd) as [?|[?|?]]; [done|by left|by right].
  - simpl. by rewrite lookup_insert_ne.
  - apply cyclic_inner_load.
  - pose proof (_import_name_extends W options (S fuel) B self_A) as Hext.
    rewrite cyclic_inner_load in Hext. apply Hext.
  - unfold self_B. rewrite lookup_linked_eq. unfold self_AB. simpl.
    rewrite lookup_insert_eq. simpl. eauto.
Qed.

Lemma cyclic_extends : extends self self_BA.
Proof.
  pose proof (_import_name_extends W options (S (S fuel)) A self) as Hext.
  by rewrite cyclic_outer_load in Hext.
Qed.

Lemma cyclic_lookup_A :
  _modules self_BA !! A
  = Some {| Mod.module_name := A; Mod.filename := fA;
            Mod.ast := length (heap self_B) + 2; Mod.dirty := true |}.
Proof.
  unfold self_BA. rewrite lookup_linked_eq.
  unfold self_B. rewrite lookup_linked_ne by done.
  simpl. rewrite lookup_insert_ne by done. by rewrite lookup_insert_eq.
Qed.

Lemma cyclic_lookup_B :
  _modules self_BA !! B
  = Some {| Mod.module_name := B; Mod.filename := fB;
            Mod.ast := length (heap self_AB) + 2; Mod.dirty := true |}.
Proof.
  unfold self_BA. rewrite lookup_linked_ne by done.
  unfold self_B. rewrite lookup_linked_eq.
  simpl. by rewrite lookup_insert_eq.
Qed.

Lemma cyclic_lookup_other n :
  n ≠ A → n ≠ B → _modules self_BA !! n = _modules self !! n.
Proof.
  intros HA HB. unfold self_BA. rewrite lookup_linked_ne by done.
  unfold self_B. rewrite lookup_linked_ne by done.
  simpl. by rewrite !lookup_insert_ne.
Qed.

Lemma cyclic_content_A :
  content self_BA (length (heap self_B) + 2)
  = finished_tree W A tA resolved_A.
Proof. apply content_linked_new. Qed.

Lemma cyclic_content_B :
  content self_BA (length (heap self_AB) + 2)
  = finished_tree W B tB resolved_B.
Proof.
  unfold self_BA. rewrite content_linked_old.
  - apply content_linked_new.
  - unfold self_B. simpl. rewrite !length_app. simpl. lia.
Qed.

Lemma cyclic_trace :
  trace self_BA = pB ++ evsB ++ pA ++ evsA ++ trace self.
Proof. done. Qed.

(** The template passes leave the class definitions and the reference
    nodes as they are. *)
Hypothesis templates_keep : ∀ t,
  refs (InsertSignatureTemplates W t) = refs t
  ∧ classes (InsertSignatureTemplates W t) = classes t.
Hypothesis adjusting_keeps : ∀ lookup t,
  refs (AdjustTemplates W lookup t) = refs t
  ∧ classes (AdjustTemplates W lookup t) = classes t.

Lemma finished_tree_classes module_name t module_map self_name :
  classes (finished_tree W module_name t
             (LookupExternalTypes module_map self_name t))
  = classes t.
Proof.
  unfold finished_tree. simpl.
  destruct (adjusting_keeps
              (InsertSignatureTemplates W
                 (LookupExternalTypes module_map self_name t))
              (InsertSignatureTemplates W
                 (LookupExternalTypes module_map self_name t))) as [_ ->].
  by destruct (templates_keep (LookupExternalTypes module_map self_name t))
    as [_ ->].
Qed.

Lemma finished_tree_names module_name t module_map self_name r :
  r ∈ refs (finished_tree W module_name t
              (LookupExternalTypes module_map self_name t)) →
  ∃ r0, r0 ∈ refs t ∧ name r = name r0.
Proof.
  unfold finished_tree. simpl.
  destruct (adjusting_keeps
              (InsertSignatureTemplates W
                 (LookupExternalTypes module_map self_name t))
              (InsertSignatureTemplates W
                 (LookupExternalTypes module_map self_name t))) as [-> _].
  destruct (templates_keep (LookupExternalTypes module_map self_name t))
    as [-> _].
  simpl. intros (r1 & -> & (r0 & -> & Hr0)%list_elem_of_fmap)%list_elem_of_fmap.
  exists r0. split; [done|].
  by rewrite name_fill_in, name_lookup_external.
Qed.

(** What the registry already holds is consistent and can be completed. *)
Hypothesis self_consistent : consistent self.
Hypothesis self_completable : completable self.

(** The lookup map of the final pass over a tree of the pair defines the
    classes of [A]'s tree under [A], of [B]'s tree under [B], of the tree
    itself under the empty name, and what the registry defined. *)
Lemma cyclic_finish_map own h :
  classes (content self_BA h) = classes own →
  ∀ k, classes <$> (<["" := own]>
                      (<[A := tA]> (<[B := tB]> (module_map self)))) !! k
       = classes <$> finish_map self_BA h !! k.
Proof.
  intros Hown k. unfold finish_map.
  destruct (decide (k = "")) as [->|Hk].
  { rewrite !lookup_insert_eq. simpl. by rewrite Hown. }
  rewrite !(lookup_insert_ne _ "" k) by done.
  unfold module_map at 2. rewrite lookup_fmap.
  destruct (decide (k = A)) as [->|HkA].
  { rewrite lookup_insert_eq, cyclic_lookup_A.
    cbn [fmap option_fmap option_map Mod.ast].
    rewrite cyclic_content_A. unfold resolved_A.
    by rewrite finished_tree_classes. }
  rewrite lookup_insert_ne by done.
  destruct (decide (k = B)) as [->|HkB].
  { rewrite lookup_insert_eq, cyclic_lookup_B.
    cbn [fmap option_fmap option_map Mod.ast].
    rewrite cyclic_content_B. unfold resolved_B.
    by rewrite finished_tree_classes. }
  rewrite lookup_insert_ne by done.
  rewrite cyclic_lookup_other by done. unfold module_map.
  rewrite lookup_fmap.
  destruct (_modules self !! k) as [m|] eqn:Hm; simpl; [|done].
  do 2 f_equal. symmetry. apply content_extends; [apply cyclic_extends|].
  by apply (self_completable k m).
Qed.

(** Every reference node of the two trees names a class of [A], of [B],
    of the tree itself or of a registered module. *)
Hypothesis A_resolves :
  resolves_in (<["" := tA]> (<[A := tA]> (<[B := tB]> (module_map self)))) tA.
Hypothesis B_resolves :
  resolves_in (<["" := tB]> (<[A := tA]> (<[B := tB]> (module_map self)))) tB.

Lemma cyclic_completable : completable self_BA.
Proof.
  intros n m Hm.
  assert (HlenB : length (heap self_AB) + 2 < length (heap self_B)).
  { unfold self_B. simpl. rewrite !length_app. simpl. lia. }
  assert (HlenA : length (heap self_B) + 2 < length (heap self_BA)).
  { unfold self_BA. simpl. rewrite !length_app. simpl. lia. }
  assert (HlenBA : length (heap self_B) ≤ length (heap self_BA)).
  { unfold self_BA. simpl. rewrite !length_app. simpl. lia. }
  destruct (decide (n = A)) as [->|HnA].
  { assert (Hast : Mod.ast m = length (heap self_B) + 2)
      by (rewrite cyclic_lookup_A in Hm; by injection Hm as <-).
    rewrite Hast.
    split; [done|]. apply FillInModuleClasses_binds. intros r Hr. right.
    rewrite cyclic_content_A in Hr.
    apply finished_tree_names in Hr as (r0 & Hr0 & ->).
    eapply find_class_is_Some; [|apply (A_resolves r0 Hr0)].
    apply cyclic_finish_map. rewrite cyclic_content_A.
    apply finished_tree_classes. }
  destruct (decide (n = B)) as [->|HnB].
  { assert (Hast : Mod.ast m = length (heap self_AB) + 2)
      by (rewrite cyclic_lookup_B in Hm; by injection Hm as <-).
    rewrite Hast.
    split; [lia|]. apply FillInModuleClasses_binds. intros r Hr. right.
    rewrite cyclic_content_B in Hr.
    apply finished_tree_names in Hr as (r0 & Hr0 & ->).
    eapply find_class_is_Some; [|apply (B_resolves r0 Hr0)].
    apply cyclic_finish_map. rewrite cyclic_content_B.
    apply finished_tree_classes. }
  rewrite cyclic_lookup_other in Hm by done.
  destruct (self_completable n m Hm) as [Hlt Hv].
  pose proof cyclic_extends as Hext.
  split.
  { destruct Hext as [_ _ Hheap _]. apply prefix_length in Hheap. lia. }
  rewrite (content_extends self self_BA) by (done || apply Hext).
  eapply FillInModuleClasses_mono; [|exact Hv].
  intros q [l Hq]. exists l. eapply find_class_weaken; [|exact Hq].
  unfold finish_map.
  rewrite (content_extends self self_BA) by (done || apply Hext).
  apply insert_mono, module_map_extends; [done|].
  intros n' m' Hm'. by apply (self_completable n' m').
Qed.

(** No generic usage is malformed. *)
Hypothesis containers_verify : ∀ t, VerifyContainers W t = true.

(** C1.  Let [A] and [B] be modules that are not registered, whose trees
    reference each other and otherwise only registered modules, every
    reference naming a class that exists.  Then importing [A] returns
    with any fuel of two or more: both modules are registered, every
    module is clean and no reference node of a registered tree, those of
    [A] and [B] among them, is unbound.  The collaborators were asked
    once for [A], then once for [B], and not again for [A]: the load of
    [B] found [A] registered. *)
Theorem cyclic_import_resolves :
  let out := import_name W options (S (S fuel)) A self in
  ∃ hA hB,
    out.1 = Ok (Some hA)
    ∧ registered_as out.2 A fA hA
    ∧ registered_as out.2 B fB hB
    ∧ all_clean out.2
    ∧ all_bound out.2
    ∧ VerifyLookup (content out.2 hA) = true
    ∧ VerifyLookup (content out.2 hB) = true
    ∧ trace out.2 = pB ++ evsB ++ pA ++ evsA ++ trace self.
Proof.
  cbv zeta. unfold import_name. rewrite bind_eq, cyclic_outer_load, bind_eq.
  assert (Hc : consistent self_BA)
    by (eapply consistent_extends; [apply cyclic_extends|done]).
  pose proof (_lookup_all_classes_succeeds W self_BA containers_verify
                cyclic_completable) as Hok.
  destruct (_lookup_all_classes_spec W self_BA Hc) as (Hc' & Hs & _ & Hclean).
  pose proof (_lookup_all_classes_same_trace W self_BA) as Htrace.
  destruct (_lookup_all_classes W self_BA) as [[[]|e|] self'];
    simpl in Hok, Hc', Hs, Hclean, Htrace; [|done|done].
  specialize (Hclean eq_refl).
  assert (Hbound : all_bound self').
  { intros n m Hm. apply (Hc' n m Hm). by eapply Hclean. }
  assert (HA : registered_as self' A fA (length (heap self_B) + 2)).
  { apply (sweeps_keeps self_BA); [done|]. eexists.
    split; [apply cyclic_lookup_A|done]. }
  assert (HB : registered_as self' B fB (length (heap self_AB) + 2)).
  { apply (sweeps_keeps self_BA); [done|]. eexists.
    split; [apply cyclic_lookup_B|done]. }
  exists (length (heap self_B) + 2), (length (heap self_AB) + 2).
  split; [done|]. split; [done|]. split; [done|]. split; [done|].
  split; [done|]. split; [|split].
  - destruct HA as (m & Hm & _ & <-). by apply (Hbound A).
  - destruct HB as (m & Hm & _ & <-). by apply (Hbound B).
  - etrans; [exact Htrace|apply cyclic_trace].
Qed.

End Cyclic.

Lemma Example_start_completable : completable Example.start.
Proof.
  intros n m Hm.
  assert (Hcases : m = {| Mod.module_name := "typing";
                          Mod.filename := "pytd:typing";
                          Mod.ast := 1; Mod.dirty := true |}
                   ∨ m = {| Mod.module_name := "__builtin__";
                            Mod.filename := "pytd:__builtin__";
                            Mod.ast := 0; Mod.dirty := true |}).
  { change (_modules Example.start)
      with (<["typing" := {| Mod.module_name := "typing";
                             Mod.filename := "pytd:typing";
                             Mod.ast := 1; Mod.dirty := true |}]>
              (<["__builtin__" := {| Mod.module_name := "__builtin__";
                                     Mod.filename := "pytd:__builtin__";
                                     Mod.ast := 0; Mod.dirty := true |}]>
                 (∅ : gmap string Module))) in Hm.
    destruct (decide (n = "typing")) as [->|].
    { rewrite lookup_insert_eq in Hm. left. congruence. }
    rewrite lookup_insert_ne in Hm by done.
    destruct (decide (n = "__builtin__")) as [->|].
    { rewrite lookup_insert_eq in Hm. right. congruence. }
    by rewrite lookup_insert_ne in Hm. }
  destruct Hcases as [-> | ->]; split; simpl; (lia || reflexivity).
Qed.

Lemma cyclic_import_resolves_witness :
  let out := import_name Example.world Example.options 2 "foo"
               Example.start in
  ∃ hA hB,
    out.1 = Ok (Some hA)
    ∧ registered_as out.2 "foo" "foo.pyi" hA
    ∧ registered_as out.2 "bar" "bar.pyi" hB
    ∧ all_clean out.2
    ∧ all_bound out.2
    ∧ VerifyLookup (content out.2 hA) = true
    ∧ VerifyLookup (content out.2 hB) = true
    ∧ trace out.2
      = [parsed "bar.pyi" "bar"]
        ++ [probed_isdir "bar.pyi"; probed_exists "bar.pyi";
            probed_isdir "bar"; probed_exists "bar/__init__.pyi";
            asked_predefined "builtins" "bar"]
        ++ [parsed "foo.pyi" "foo"]
        ++ [probed_isdir "foo.pyi"; probed_exists "foo.pyi";
            probed_isdir "foo"; probed_exists "foo/__init__.pyi";
            asked_predefined "builtins" "foo"]
        ++ trace Example.start.
Proof.
  apply (cyclic_import_resolves Example.world Example.options 0
           "foo" "bar" Example.start
           _ _ _ _ "foo.pyi" "bar.pyi" None None
           (Example.tree "foo" ["foo.Foo"] ["bar.Bar"; "foo.Foo"])
           (Example.tree "bar" ["bar.Bar"] ["foo.Foo"])).
  - done.
  - reflexivity.
  - reflexivity.
  - by vm_compute.
  - by vm_compute.
  - by vm_compute.
  - by vm_compute.
  - reflexivity.
  - reflexivity.
  - vm_compute. left.
  - vm_compute. left.
  - intros d Hd. vm_compute in Hd.
    apply elem_of_cons in Hd as [->|Hd]; [by right; left|].
    apply elem_of_cons in Hd as [->|Hd]; [by left|].
    by apply elem_of_nil in Hd.
  - intros d Hd. vm_compute in Hd.
    apply elem_of_cons in Hd as [->|Hd]; [by left|].
    by apply elem_of_nil in Hd.
  - intros t. by split.
  - intros lookup t. by split.
  - apply (__init___consistent Example.world Example.options). reflexivity.
  - apply Example_start_completable.
  - intros r Hr. simpl in Hr.
    apply elem_of_cons in Hr as [->|Hr]; [vm_compute; eauto|].
    apply elem_of_cons in Hr as [->|Hr]; [vm_compute; eauto|].
    by apply elem_of_nil in Hr.
  - intros r Hr. simpl in Hr.
    apply elem_of_cons in Hr as [->|Hr]; [vm_compute; eauto|].
    by apply elem_of_nil in Hr.
  - reflexivity.
Defined.

(** * Further properties of the loader *)

(** ** Invariants through a load *)

Lemma preserves_ret (I : Loader → Prop) {A} (a : A) : preserves I (mret a).
Proof. by intros self. Qed.

Lemma preserves_raise (I : Loader → Prop) {A} e : preserves I (raise (A:=A) e).
Proof. by intros self. Qed.

Lemma preserves_gets (I : Loader → Prop) {A} (f : Loader → A) :
  preserves I (gets f).
Proof. by intros self. Qed.

Lemma preserves_bind (I : Loader → Prop) {A B} (m : M A) (f : A → M B) :
  preserves I m → (∀ a, preserves I (f a)) → preserves I (m ≫= f).
Proof.
  intros Hm Hf self HI. rewrite bind_eq. specialize (Hm self HI).
  destruct (m self) as [[a|e|] self']; simpl in *; [by apply Hf|done|done].
Qed.

Lemma preserves_for_each (I : Loader → Prop) {A} (l : list A)
    (body : A → M unit) :
  (∀ x, preserves I (body x)) → preserves I (for_each l body).
Proof.
  intros Hbody. induction l as [|x l IH]; simpl.
  - apply preserves_ret.
  - apply preserves_bind; [apply Hbody|by intros _].
Qed.

Lemma preserves_returning_some (I : Loader → Prop) (m : M handle) self :
  I (m self).2 → I (returning_some (m self)).2.
Proof. by destruct (m self) as [[?|?|] ?]. Qed.

Section LoadInvariant.

Context (W : World) (options : Options).
Variable rec : string → M (option handle).

(** An invariant that the steps of a load keep. *)
Variable I : Loader → Prop.
Hypothesis rec_preserves : ∀ name, preserves I (rec name).
Hypothesis I_events : ∀ evs self, I self → I (with_events evs self).
Hypothesis I_staged : ∀ module_name filename ast self,
  I self → _modules self !! module_name = None →
  I (staged module_name filename ast self).
Hypothesis I_linked : ∀ module_name ast resolved self,
  I self → I (linked W module_name ast resolved self).
Hypothesis I_evicted : ∀ module_name self,
  I self → I (evicted module_name self).

Lemma _load_and_resolve_ast_dependencies_preserves ast ast_name :
  preserves I (_load_and_resolve_ast_dependencies rec ast ast_name).
Proof.
  rewrite _load_and_resolve_ast_dependencies_eq. case_bool_decide.
  - apply preserves_bind.
    + apply preserves_for_each. intros name. unfold load_if_missing.
      apply preserves_bind; [apply preserves_gets|].
      intros [|]; [apply preserves_ret|].
      apply preserves_bind; [apply rec_preserves|].
      intros [?|]; [apply preserves_ret|apply preserves_raise].
    + intros _. apply preserves_bind; [apply preserves_gets|].
      intros ?. apply preserves_ret.
  - apply preserves_ret.
Qed.

(** [_load_file] sets [_concatenated] to [None] first; what holds then
    holds when it is left. *)
Lemma _load_file_invariant module_name filename ast self :
  I (with_concatenated None self) →
  I (_load_file W options rec module_name filename ast self).2.
Proof.
  intros HI. destruct (_modules self !! module_name) as [m|] eqn:Hm.
  { destruct (decide (Mod.filename m = filename)) as [Hf|Hf].
    - by rewrite (_load_file_hit _ _ _ _ _ _ _ m Hm Hf).
    - by rewrite (_load_file_conflict _ _ _ _ _ _ _ m Hm Hf). }
  rewrite _load_file_miss by done.
  destruct (obtain W options module_name filename ast) as [evs [raw|]];
    [|by apply I_events].
  cbv zeta.
  pose proof (_load_and_resolve_ast_dependencies_preserves
                (_postprocess_pyi W options raw) (Some module_name)
                (staged module_name filename (_postprocess_pyi W options raw)
                   (with_events evs (with_concatenated None self)))) as Hdeps.
  destruct (_load_and_resolve_ast_dependencies _ _ _ _)
    as [[resolved|e|] self']; simpl in Hdeps |- *.
  - apply I_linked, Hdeps, I_staged; [by apply I_events|done].
  - assert (I self') by (apply Hdeps, I_staged; [by apply I_events|done]).
    destruct (_modules self' !! module_name); [by apply I_evicted|done].
  - apply Hdeps, I_staged; [by apply I_events|done].
Qed.

Lemma load_found_invariant module_name found self :
  (∀ self, I self → I (with_concatenated None self)) →
  I self → I (load_found W options rec module_name found self).2.
Proof.
  intros Hconc HI. destruct found as [evs [[filename ast]|]].
  - rewrite load_found_some. apply preserves_returning_some.
    apply _load_file_invariant. by apply Hconc, I_events.
  - rewrite load_found_none. by apply I_events.
Qed.

Lemma _import_name_body_preserves module_name :
  (∀ self, I self → I (with_concatenated None self)) →
  preserves I (_import_name_body W options rec module_name).
Proof.
  intros Hconc self HI.
  destruct (PyStr.contains PyStr.os_sep module_name) eqn:Hsep.
  - unfold _import_name_body. by rewrite Hsep.
  - rewrite _import_name_body_found by done. by apply load_found_invariant.
Qed.

End LoadInvariant.

Lemma _import_name_preserves W options (I : Loader → Prop) fuel module_name :
  (∀ evs self, I self → I (with_events evs self)) →
  (∀ self, I self → I (with_concatenated None self)) →
  (∀ module_name filename ast self,
     I self → _modules self !! module_name = None →
     I (staged module_name filename ast self)) →
  (∀ module_name ast resolved self,
     I self → I (linked W module_name ast resolved self)) →
  (∀ module_name self, I self → I (evicted module_name self)) →
  preserves I (_import_name W options fuel module_name).
Proof.
  intros Hev Hconc Hst Hli Hevi. revert module_name.
  induction fuel as [|fuel IH]; intros module_name; [by intros self|].
  by apply _import_name_body_preserves.
Qed.

(** ** Modules, names and tree objects *)

Lemma well_formed_same_registry self self' :
  _modules self' = _modules self → length (heap self) ≤ length (heap self') →
  well_formed self → well_formed self'.
Proof.
  intros Hm Hh [Hkey Hinj]. split.
  - intros n m Hn. rewrite Hm in Hn. destruct (Hkey n m Hn). split; [done|lia].
  - intros n n' m m'. rewrite Hm. apply Hinj.
Qed.

Lemma well_formed_staged module_name filename ast self :
  well_formed self → _modules self !! module_name = None →
  well_formed (staged module_name filename ast self).
Proof.
  intros [Hkey Hinj] Hnone.
  assert (Hlook : ∀ n m,
            _modules (staged module_name filename ast self) !! n = Some m →
            (n = module_name ∧ Mod.module_name m = n
             ∧ Mod.ast m = length (heap self))
            ∨ (n ≠ module_name ∧ _modules self !! n = Some m)).
  { intros n m. simpl. destruct (decide (n = module_name)) as [->|Hne].
    - rewrite lookup_insert_eq. intros [= <-]. by left.
    - rewrite lookup_insert_ne by done. by right. }
  split.
  - intros n m Hn. simpl. rewrite length_app. simpl.
    destruct (Hlook n m Hn) as [(-> & ? & ->)|[_ Hn']]; [split; [done|lia]|].
    destruct (Hkey n m Hn'). split; [done|lia].
  - intros n n' m m' Hn Hn' Heq.
    destruct (Hlook n m Hn) as [(-> & _ & Ha)|[_ Hm]],
             (Hlook n' m' Hn') as [(-> & _ & Ha')|[_ Hm']]; try done.
    + destruct (Hkey n' m' Hm'). lia.
    + destruct (Hkey n m Hm). lia.
    + by eapply Hinj.
Qed.

Lemma well_formed_linked W module_name ast resolved self :
  well_formed self → well_formed (linked W module_name ast resolved self).
Proof.
  intros [Hkey Hinj].
  assert (Hlook : ∀ n m,
            _modules (linked W module_name ast resolved self) !! n = Some m →
            (n = module_name ∧ Mod.module_name m = n
             ∧ Mod.ast m = length (heap self) + 2)
            ∨ (n ≠ module_name ∧ _modules self !! n = Some m)).
  { intros n m. destruct (decide (n = module_name)) as [->|Hne].
    - rewrite lookup_linked_eq.
      destruct (_modules self !! module_name) as [m0|] eqn:Hm0; [|done].
      simpl. intros [= <-]. left. destruct (Hkey _ _ Hm0). done.
    - rewrite lookup_linked_ne by done. by right. }
  split.
  - intros n m Hn. simpl. rewrite length_app. simpl.
    destruct (Hlook n m Hn) as [(-> & ? & ->)|[_ Hn']]; [split; [done|lia]|].
    destruct (Hkey n m Hn'). split; [done|lia].
  - intros n n' m m' Hn Hn' Heq.
    destruct (Hlook n m Hn) as [(-> & _ & Ha)|[_ Hm]],
             (Hlook n' m' Hn') as [(-> & _ & Ha')|[_ Hm']]; try done.
    + destruct (Hkey n' m' Hm'). lia.
    + destruct (Hkey n m Hm). lia.
    + by eapply Hinj.
Qed.

Lemma well_formed_evicted module_name self :
  well_formed self → well_formed (evicted module_name self).
Proof.
  intros [Hkey Hinj]. split.
  - intros n m Hn. simpl in Hn. apply lookup_delete_Some in Hn as [_ Hn].
    by apply Hkey.
  - intros n n' m m' Hn Hn'. simpl in Hn, Hn'.
    apply lookup_delete_Some in Hn as [_ Hn].
    apply lookup_delete_Some in Hn' as [_ Hn']. by eapply Hinj.
Qed.

Lemma well_formed_cleaned key self :
  well_formed self → well_formed (cleaned key self).
Proof.
  intros [Hkey Hinj].
  assert (Hlook : ∀ n m,
            _modules (cleaned key self) !! n = Some m →
            ∃ m0, _modules self !! n = Some m0
                  ∧ Mod.module_name m = Mod.module_name m0
                  ∧ Mod.ast m = Mod.ast m0).
  { intros n m. simpl. destruct (decide (n = key)) as [->|Hne].
    - rewrite lookup_alter_eq.
      destruct (_modules self !! key) as [m0|]; [|done].
      simpl. intros [= <-]. eauto.
    - rewrite lookup_alter_ne by done. eauto. }
  split.
  - intros n m Hn. destruct (Hlook n m Hn) as (m0 & Hm0 & -> & ->).
    by apply Hkey.
  - intros n n' m m' Hn Hn' Heq.
    destruct (Hlook n m Hn) as (m0 & Hm0 & _ & Ha).
    destruct (Hlook n' m' Hn') as (m0' & Hm0' & _ & Ha').
    eapply Hinj; [done|done|congruence].
Qed.

Lemma well_formed_filled ast self :
  well_formed self → well_formed (filled ast self).
Proof.
  apply well_formed_same_registry; [done|]. simpl. by rewrite length_insert.
Qed.

Lemma _import_name_well_formed W options fuel module_name :
  preserves well_formed (_import_name W options fuel module_name).
Proof.
  apply _import_name_preserves.
  - intros evs self. by apply well_formed_same_registry.
  - intros self. by apply well_formed_same_registry.
  - intros n f t self. apply well_formed_staged.
  - intros n t r self. apply well_formed_linked.
  - intros n self. apply well_formed_evicted.
Qed.

Lemma _finish_ast_well_formed W ast : preserves well_formed (_finish_ast W ast).
Proof. intros self Hw. rewrite _finish_ast_eq. by apply well_formed_filled. Qed.

Lemma _lookup_all_classes_well_formed W :
  preserves well_formed (_lookup_all_classes W).
Proof.
  intros self Hw0. rewrite _lookup_all_classes_eq.
  apply (preserves_for_each well_formed (map_to_list (_modules self))
           (finish_if_dirty W)); [|done].
  clear self Hw0. intros [name module] self Hw.
  rewrite finish_if_dirty_eq. destruct (Mod.dirty module); [|done].
  destruct (verified W _) as [[]|e|]; simpl.
  - by apply well_formed_cleaned, well_formed_filled.
  - by apply well_formed_filled.
  - by apply well_formed_filled.
Qed.

Lemma then_sweep_preserves W (I : Loader → Prop) (m : M (option handle)) :
  preserves I m → preserves I (_lookup_all_classes W) →
  preserves I (ast ← m; _lookup_all_classes W;; mret ast).
Proof.
  intros Hm Hs. apply preserves_bind; [done|]. intros ast.
  apply preserves_bind; [done|]. intros _. apply preserves_ret.
Qed.

Lemma new_well_formed t : preserves well_formed (new t).
Proof.
  intros self. apply well_formed_same_registry; [done|].
  simpl. rewrite length_app. lia.
Qed.

Lemma resolve_ast_well_formed W options fuel ast :
  preserves well_formed (resolve_ast W options fuel ast).
Proof.
  unfold resolve_ast. apply preserves_bind.
  { apply _load_and_resolve_ast_dependencies_preserves.
    intros name. apply _import_name_well_formed. }
  intros resolved. apply preserves_bind; [apply new_well_formed|].
  intros h. apply preserves_bind; [apply _lookup_all_classes_well_formed|].
  intros _. apply preserves_bind; [apply _finish_ast_well_formed|].
  intros _. apply preserves_ret.
Qed.

Lemma __init___well_formed W options self :
  __init__ W options = Ok self → well_formed self.
Proof.
  intros Hinit. apply __init___inv in Hinit as (Hm & Hh & _).
  assert (Hlook : ∀ n m, _modules self !! n = Some m →
            (n = "typing" ∧ Mod.module_name m = n ∧ Mod.ast m = 1)
            ∨ (n = "__builtin__" ∧ Mod.module_name m = n ∧ Mod.ast m = 0)).
  { intros n m. rewrite Hm.
    destruct (decide (n = "typing")) as [->|].
    { rewrite lookup_insert_eq. intros [= <-]. by left. }
    rewrite lookup_insert_ne by done.
    destruct (decide (n = "__builtin__")) as [->|].
    { rewrite lookup_insert_eq. intros [= <-]. by right. }
    by rewrite lookup_insert_ne. }
  split.
  - intros n m Hn. rewrite Hh. simpl.
    destruct (Hlook n m Hn) as [(_ & ? & ->)|(_ & ? & ->)]; split; (done || lia).
  - intros n n' m m' Hn Hn' Heq.
    destruct (Hlook n m Hn) as [(-> & _ & Ha)|(-> & _ & Ha)],
             (Hlook n' m' Hn') as [(-> & _ & Ha')|(-> & _ & Ha')];
      (done || lia).
Qed.

(** X1.  In every state a loader reaches, a module is registered under
    its own name, its tree is an object of the heap, and no two modules
    hold the same tree object: this holds of a new loader and every
    public entry point keeps it, whatever its outcome. *)
Theorem modules_own_their_trees W options base_module :
  (∀ self, __init__ W options = Ok self → well_formed self)
  ∧ (∀ fuel call self,
       well_formed self →
       well_formed (public W options base_module fuel call self).2).
Proof.
  split.
  { apply __init___well_formed. }
  intros fuel call self Hw.
  destruct call as [module_name|level|name|ast]; simpl.
  - exact (then_sweep_preserves W well_formed _
             (_import_name_well_formed W options fuel _)
             (_lookup_all_classes_well_formed W) self Hw).
  - unfold import_relative. case_bool_decide; [|done].
    destruct base_module as [base|]; [|done].
    exact (then_sweep_preserves W well_formed _
             (_import_name_well_formed W options fuel _)
             (_lookup_all_classes_well_formed W) self Hw).
  - unfold import_relative_name. destruct base_module as [base|]; [|done].
    exact (then_sweep_preserves W well_formed _
             (_import_name_well_formed W options fuel _)
             (_lookup_all_classes_well_formed W) self Hw).
  - apply (preserves_returning_some well_formed
             (resolve_ast W options fuel ast)).
    by apply resolve_ast_well_formed.
Qed.

Lemma modules_own_their_trees_witness :
  well_formed
    (public Example.world Example.options None 3 (call_import_name "foo")
       Example.start).2.
Proof.
  destruct (modules_own_their_trees Example.world Example.options None)
    as [Hinit Hcall].
  apply Hcall. apply Hinit. reflexivity.
Defined.

(** ** The merged view *)

#[global] Instance view_still_valid_preorder : PreOrder view_still_valid.
Proof.
  split.
  - intros self. by right.
  - intros s1 s2 s3 [H12|[H12 D12]] [H23|[H23 D23]];
      unfold view_still_valid; try (by left).
    + left. congruence.
    + right. split; congruence.
Qed.

Lemma _import_name_drops_view_kept W options fuel module_name :
  preserves (λ self, _concatenated self = None)
    (_import_name W options fuel module_name).
Proof. by apply _import_name_preserves. Qed.

Lemma _load_file_drops_view W options fuel module_name filename ast self :
  _concatenated
    (_load_file W options (_import_name W options fuel)
       module_name filename ast self).2 = None.
Proof.
  apply (_load_file_invariant W options (_import_name W options fuel)
           (λ self, _concatenated self = None)); try done.
  intros name. apply _import_name_drops_view_kept.
Qed.

Lemma _import_name_view W options fuel module_name :
  steps view_still_valid (_import_name W options fuel module_name).
Proof.
  intros self. destruct fuel as [|fuel]; [by right|]. simpl.
  destruct (PyStr.contains PyStr.os_sep module_name) eqn:Hsep.
  { unfold _import_name_body. rewrite Hsep. by right. }
  rewrite _import_name_body_found by done.
  destruct (locate W options module_name) as [evs [[filename ast]|]].
  - rewrite load_found_some. left.
    pose proof (_load_file_drops_view W options fuel module_name filename ast
                  (with_events evs self)) as Hnone.
    by destruct (_load_file _ _ _ _ _ _ _) as [[?|?|] ?].
  - rewrite load_found_none. by right.
Qed.

Lemma finish_if_dirty_view W entry :
  steps view_still_valid (finish_if_dirty W entry).
Proof.
  destruct entry as [name module]. intros self. rewrite finish_if_dirty_eq.
  destruct (Mod.dirty module); [|by right].
  destruct (verified W _) as [[]|e|]; simpl; right; split; try done.
  simpl. by rewrite dom_alter_L.
Qed.

Lemma _lookup_all_classes_view W :
  steps view_still_valid (_lookup_all_classes W).
Proof.
  intros self. rewrite _lookup_all_classes_eq.
  apply steps_for_each; [apply _|]. apply finish_if_dirty_view.
Qed.

Lemma then_sweep_view W (m : M (option handle)) :
  steps view_still_valid m →
  steps view_still_valid (ast ← m; _lookup_all_classes W;; mret ast).
Proof.
  intros Hm. steps_bind; [done|]. intros ast. steps_bind.
  - apply _lookup_all_classes_view.
  - intros _. steps_leaf.
Qed.

(** X2.  [_load_file] always leaves the merged view dropped, also when
    it answers from the cache and when it fails.  Hence after a public
    entry point the merged view is dropped, or it is the one there was
    and no module was added to or removed from the registry: a cached
    view never outlives a change of the set of modules. *)
Theorem merged_view_is_dropped_by_loads W options base_module :
  (∀ fuel module_name filename ast self,
     _concatenated
       (_load_file W options (_import_name W options fuel)
          module_name filename ast self).2 = None)
  ∧ (∀ fuel call self,
       let out := public W options base_module fuel call self in
       _concatenated out.2 = None
       ∨ (_concatenated out.2 = _concatenated self
          ∧ dom (_modules out.2) = dom (_modules self))).
Proof.
  split; [intros; apply _load_file_drops_view|].
  intros fuel call self. cbv zeta.
  change (view_still_valid self
            (public W options base_module fuel call self).2).
  destruct call as [module_name|level|name|ast]; simpl.
  - apply then_sweep_view, _import_name_view.
  - unfold import_relative. case_bool_decide; [|by right].
    destruct base_module as [base|]; [|by right].
    apply then_sweep_view, _import_name_view.
  - unfold import_relative_name. destruct base_module as [base|]; [|by right].
    apply then_sweep_view, _import_name_view.
  - apply steps_returning_some; try apply _.
    revert self. unfold resolve_ast. steps_bind.
    { rewrite _load_and_resolve_ast_dependencies_eq. case_bool_decide.
      - steps_bind.
        + apply steps_for_each; [apply _|]. intros name.
          unfold load_if_missing. steps_bind; [steps_leaf|].
          intros [|]; [steps_leaf|]. steps_bind; [apply _import_name_view|].
          intros [?|]; steps_leaf.
        + intros _. steps_bind; [steps_leaf|]. intros ?. steps_leaf.
      - steps_leaf. }
    intros resolved. steps_bind.
    { intros self. by right. }
    intros h. steps_bind; [apply _lookup_all_classes_view|].
    intros _. steps_bind.
    { intros self. rewrite _finish_ast_eq. by right. }
    intros _. steps_leaf.
Qed.



(** ** The exceptions of a load *)

Section LoadErrors.

Context (W : World) (options : Options).
Variable rec : string → M (option handle).
Hypothesis rec_extends : ∀ name, steps extends (rec name).
Hypothesis rec_errors : ∀ name self e,
  (rec name self).1 = Raise e → load_error W options e.
Hypothesis rec_none : ∀ name self,
  (rec name self).1 = Ok None →
  PyStr.contains PyStr.os_sep name = false
  ∧ (locate W options name).2 = None.

Lemma for_each_load_if_missing_errors names self e :
  (for_each names (load_if_missing rec) self).1 = Raise e →
  load_error W options e.
Proof.
  revert self. induction names as [|d names IH]; intros self; [done|].
  cbn [for_each]. rewrite bind_eq. unfold load_if_missing at 1.
  rewrite bind_eq. simpl. case_bool_decide; simpl; [apply IH|].
  rewrite bind_eq.
  pose proof (rec_errors d self) as Herr.
  pose proof (rec_none d self) as Hnone.
  destruct (rec d self) as [[[h|]|e'|] self']; simpl in *.
  - apply IH.
  - intros [= <-]. by apply Hnone.
  - intros [= <-]. by apply Herr.
  - done.
Qed.

Lemma _load_and_resolve_ast_dependencies_errors ast ast_name self e :
  (_load_and_resolve_ast_dependencies rec ast ast_name self).1 = Raise e →
  load_error W options e.
Proof.
  rewrite _load_and_resolve_ast_dependencies_eq. case_bool_decide; [|done].
  rewrite bind_eq.
  pose proof (for_each_load_if_missing_errors (CollectDependencies ast) self)
    as Herr.
  destruct (for_each _ _ self) as [[[]|e'|] self']; simpl in *; [done| |done].
  intros [= <-]. by apply Herr.
Qed.

Lemma _load_file_errors module_name filename ast evs self e :
  locate W options module_name = (evs, Some (filename, ast)) →
  (_load_file W options rec module_name filename ast self).1 = Raise e →
  load_error W options e.
Proof.
  intros Hloc. destruct (_modules self !! module_name) as [m|] eqn:Hm.
  { destruct (decide (Mod.filename m = filename)) as [Hf|Hf].
    - by rewrite (_load_file_hit _ _ _ _ _ _ _ m Hm Hf).
    - rewrite (_load_file_conflict _ _ _ _ _ _ _ m Hm Hf). simpl.
      intros [= <-]. simpl. split; [done|eauto]. }
  rewrite _load_file_miss by done.
  destruct ast as [raw|]; simpl.
  - pose proof (_load_and_resolve_ast_dependencies_errors
                  (_postprocess_pyi W options raw) (Some module_name)
                  (staged module_name filename (_postprocess_pyi W options raw)
                     (with_events [] (with_concatenated None self)))) as Herr.
    pose proof (_load_and_resolve_ast_dependencies_extends rec
                  rec_extends (_postprocess_pyi W options raw)
                  (Some module_name)
                  (staged module_name filename (_postprocess_pyi W options raw)
                     (with_events [] (with_concatenated None self)))) as Hext.
    destruct (_load_and_resolve_ast_dependencies _ _ _ _)
      as [[resolved|e'|] self']; simpl in *; [done| |done].
    assert (Hin : is_Some (_modules self' !! module_name)).
    { eexists. eapply lookup_weaken; [|apply Hext]. simpl.
      apply lookup_insert_eq. }
    destruct Hin as [m ->]. simpl. intros [= <-]. by apply Herr.
  - destruct (ParsePyTD W filename module_name (python_version options))
      as [raw|] eqn:Hparse; simpl.
    + pose proof (_load_and_resolve_ast_dependencies_errors
                    (_postprocess_pyi W options raw) (Some module_name)
                    (staged module_name filename
                       (_postprocess_pyi W options raw)
                       (with_events [parsed filename module_name]
                          (with_concatenated None self)))) as Herr.
      pose proof (_load_and_resolve_ast_dependencies_extends rec
                    rec_extends (_postprocess_pyi W options raw)
                    (Some module_name)
                    (staged module_name filename
                       (_postprocess_pyi W options raw)
                       (with_events [parsed filename module_name]
                          (with_concatenated None self)))) as Hext.
      destruct (_load_and_resolve_ast_dependencies _ _ _ _)
        as [[resolved|e'|] self']; simpl in *; [done| |done].
      assert (Hin : is_Some (_modules self' !! module_name)).
      { eexists. eapply lookup_weaken; [|apply Hext]. simpl.
        apply lookup_insert_eq. }
      destruct Hin as [m ->]. simpl. intros [= <-]. by apply Herr.
    + intros [= <-]. simpl. eauto.
Qed.

Lemma _import_name_body_errors module_name self e :
  (_import_name_body W options rec module_name self).1 = Raise e →
  load_error W options e.
Proof.
  destruct (PyStr.contains PyStr.os_sep module_name) eqn:Hsep.
  { unfold _import_name_body. rewrite Hsep. simpl. by intros [= <-]. }
  rewrite _import_name_body_found by done.
  destruct (locate W options module_name) as [evs [[filename ast]|]] eqn:Hloc;
    [|done].
  rewrite load_found_some.
  pose proof (_load_file_errors module_name filename ast evs
                (with_events evs self)) as Herr.
  destruct (_load_file _ _ _ _ _ _ _) as [[h|e'|] self']; simpl in *;
    [done| |done].
  intros [= <-]. by apply Herr.
Qed.

Lemma _import_name_body_none module_name self :
  (_import_name_body W options rec module_name self).1 = Ok None →
  PyStr.contains PyStr.os_sep module_name = false
  ∧ (locate W options module_name).2 = None.
Proof.
  destruct (PyStr.contains PyStr.os_sep module_name) eqn:Hsep.
  { unfold _import_name_body. by rewrite Hsep. }
  rewrite _import_name_body_found by done.
  destruct (locate W options module_name) as [evs [[filename ast]|]];
    [|done].
  rewrite load_found_some.
  by destruct (_load_file _ _ _ _ _ _ _) as [[h|e'|] self'].
Qed.

End LoadErrors.

Lemma _import_name_errors W options fuel :
  (∀ module_name self e,
     (_import_name W options fuel module_name self).1 = Raise e →
     load_error W options e)
  ∧ (∀ module_name self,
       (_import_name W options fuel module_name self).1 = Ok None →
       PyStr.contains PyStr.os_sep module_name = false
       ∧ (locate W options module_name).2 = None).
Proof.
  induction fuel as [|fuel [IHe IHn]]; [by split|]. split.
  - intros module_name self e. simpl.
    apply _import_name_body_errors; [|done|done].
    intros name. apply _import_name_extends.
  - intros module_name self. simpl. apply _import_name_body_none.
Qed.

Lemma then_sweep_errors W options (m : M (option handle)) self e :
  (∀ e, (m self).1 = Raise e → public_error W options e) →
  ((ast ← m; _lookup_all_classes W;; mret ast) self).1 = Raise e →
  public_error W options e.
Proof.
  intros Hm. rewrite bind_eq.
  destruct (m self) as [[a|e'|] self1]; simpl in *; [| |done].
  - rewrite bind_eq, _lookup_all_classes_eq.
    pose proof (for_each_finish_raises W (map_to_list (_modules self1)) self1)
      as Hraise.
    destruct (for_each _ _ self1) as [[[]|e'|] self2]; simpl in *;
      [done| |done].
    intros [= <-]. right. right. by apply Hraise.
  - intros [= <-]. by apply Hm.
Qed.

(** X4.  Every exception that leaves a load is explained by the
    installation: the assertion on the name for a name with a path
    separator, "exists as both" for a source the search found that is
    not the registered one, [DependencyNotFoundError] for a name no tier
    has a source for, the parser's error for a file the search found.
    The [del] of the rollback always finds its entry, so the rollback
    never replaces the exception by a [KeyError].  A public entry point
    raises these, the usage errors of the relative imports, or a failed
    verification of the sweep. *)
Theorem load_errors_are_explained W options base_module fuel :
  (∀ module_name self e,
     (_import_name W options fuel module_name self).1 = Raise e →
     load_error W options e)
  ∧ (∀ call self e,
       (public W options base_module fuel call self).1 = Raise e →
       public_error W options e ∧ ∀ key, e ≠ KeyError key).
Proof.
  destruct (_import_name_errors W options fuel) as [Herr Hnone].
  split; [exact Herr|].
  assert (Hpub : ∀ call self e,
    (public W options base_module fuel call self).1 = Raise e →
    public_error W options e).
  { intros call self e. destruct call as [module_name|level|name|ast]; simpl.
    - apply then_sweep_errors. intros e' He'. left. by eapply Herr.
    - unfold import_relative. case_bool_decide.
      + destruct base_module as [base|].
        * apply then_sweep_errors. intros e' He'. left. by eapply Herr.
        * simpl. intros [= <-]. right. by left.
      + simpl. intros [= <-]. right. by left.
    - unfold import_relative_name. destruct base_module as [base|].
      + apply then_sweep_errors. intros e' He'. left. by eapply Herr.
      + simpl. intros [= <-]. right. by left.
    - unfold resolve_ast. rewrite bind_eq.
      pose proof (_load_and_resolve_ast_dependencies_errors W options
                    (_import_name W options fuel) Herr Hnone
                    (_postprocess_pyi W options ast) None self) as Hdeps.
      destruct (_load_and_resolve_ast_dependencies _ _ _ _)
        as [[resolved|e'|] self1]; simpl in *; [| |done].
      2:{ intros [= <-]. left. by apply Hdeps. }
      rewrite bind_eq. simpl. rewrite bind_eq, _lookup_all_classes_eq.
      pose proof (for_each_finish_raises W
                    (map_to_list (_modules (new resolved self1).2))
                    (new resolved self1).2) as Hraise.
      simpl in Hraise.
      destruct (for_each _ _ _) as [[[]|e'|] self2]; simpl in *;
        [| |done].
      2:{ intros [= <-]. right. right. by apply Hraise. }
      rewrite bind_eq, _finish_ast_eq. unfold verified.
      destruct (VerifyLookup _).
      + destruct (VerifyContainers W _); simpl; [done|].
        intros [= <-]. right. right. eauto.
      + simpl. intros [= <-]. right. right. eauto. }
  intros call self e He. split; [by eapply Hpub|].
  intros key ->. destruct (Hpub _ _ _ He) as [[]|[[]|[v [=]]]].
Qed.

Lemma load_errors_are_explained_witness :
  load_error Example.world Example.options (DependencyNotFoundError "d2")
  ∧ public_error Example.world Example.options
      (DependencyNotFoundError "d2").
Proof.
  destruct (load_errors_are_explained Example.world Example.options None 2)
    as [Hload Hpublic].
  split.
  - apply (Hload "m" Example.start). vm_compute. reflexivity.
  - apply (Hpublic (call_import_name "m") Example.start). vm_compute.
    reflexivity.
Defined.

(** ** The tree of a module that was just loaded *)

Lemma for_each_load_if_missing_registers W options fuel names self :
  let out := for_each names
               (load_if_missing (_import_name W options fuel)) self in
  extends self out.2
  ∧ (out.1 = Ok tt → ∀ d, d ∈ names → is_Some (_modules out.2 !! d)).
Proof.
  revert self. induction names as [|d names IH]; intros self.
  { simpl. split; [reflexivity|]. intros _ d []%elem_of_nil. }
  cbn [for_each]. cbv zeta. rewrite bind_eq.
  assert (Hstep : ∃ r self1,
            load_if_missing (_import_name W options fuel) d self = (r, self1)
            ∧ extends self self1
            ∧ (r = Ok tt → is_Some (_modules self1 !! d))).
  { unfold load_if_missing. rewrite bind_eq. simpl. case_bool_decide as Hreg.
    - exists (Ok tt), self. split; [done|]. split; [reflexivity|done].
    - rewrite bind_eq.
      assert (Hnone : _modules self !! d = None).
      { destruct (_modules self !! d) eqn:E; [|done]. destruct Hreg. eauto. }
      pose proof (_import_name_extends W options fuel d self) as Hext.
      pose proof (_import_name_spec W options fuel d self Hnone) as Hfresh.
      unfold imported_fresh in Hfresh.
      destruct (_import_name W options fuel d self) as [[[h|]|e|] self1];
        simpl in *; eexists _, _; (split; [reflexivity|]);
        (split; [done|]); try done.
      intros _. destruct Hfresh as [(m & Hm & _) _]. eauto. }
  destruct Hstep as (r & self1 & -> & Hext1 & Hreg1).
  destruct r as [[]|e|]; simpl; [|by split..].
  destruct (IH self1) as [Hext2 Hreg2]. split; [by etrans|].
  intros Hok d' [->|Hd']%elem_of_cons; [|by apply Hreg2].
  destruct (Hreg1 eq_refl) as [m Hm]. exists m.
  eapply lookup_weaken; [exact Hm|apply Hext2].
Qed.

Lemma _load_and_resolve_ast_dependencies_registers
    W options fuel tree ast_name self resolved self' :
  _load_and_resolve_ast_dependencies (_import_name W options fuel) tree
    ast_name self = (Ok resolved, self') →
  (∀ d, d ∈ CollectDependencies tree → is_Some (_modules self' !! d))
  ∧ resolved = if bool_decide (CollectDependencies tree ≠ []) then
                 LookupExternalTypes (module_map self') ast_name tree
               else tree.
Proof.
  rewrite _load_and_resolve_ast_dependencies_eq.
  case_bool_decide as Hdeps.
  - rewrite bind_eq.
    destruct (for_each_load_if_missing_registers W options fuel
                (CollectDependencies tree) self) as [_ Hreg].
    destruct (for_each _ _ self) as [[[]|e|] self2]; simpl in *;
      [|done..].
    rewrite bind_eq. simpl. intros [= <- <-]. split; [by apply Hreg|done].
  - simpl. intros [= <- <-]. split; [|done].
    intros d Hd. rewrite Hdeps in Hd. by apply elem_of_nil in Hd.
Qed.

Lemma module_map_linked W module_name ast resolved self m :
  (∀ k mk, _modules self !! k = Some mk → Mod.ast mk < length (heap self)) →
  _modules self !! module_name = Some m →
  <[module_name := content self (Mod.ast m)]>
    (module_map (linked W module_name ast resolved self))
  = module_map self.
Proof.
  intros Hvalid Hm. apply map_eq. intros k. unfold module_map.
  destruct (decide (k = module_name)) as [->|Hne].
  - by rewrite lookup_insert_eq, lookup_fmap, Hm.
  - rewrite lookup_insert_ne, !lookup_fmap, lookup_linked_ne by done.
    destruct (_modules self !! k) as [mk|] eqn:Hk; [|done]. simpl.
    f_equal. apply content_linked_old. by eapply Hvalid.
Qed.

(** X5.  The tree a load leaves in a module that was not registered:
    the tree that was given or parsed is postprocessed; every module it
    depends on is registered when the load returns; the references into
    other modules are looked up in the registry as it is then, with the
    module itself still holding its postprocessed tree; then the
    templates are inserted and adjusted and the references into the
    module itself are filled in. *)
Theorem fresh_load_links_against_the_registry
    W options fuel module_name filename ast self h :
  well_formed self →
  _modules self !! module_name = None →
  (_load_file W options (_import_name W options fuel)
     module_name filename ast self).1 = Ok h →
  let self' := (_load_file W options (_import_name W options fuel)
                  module_name filename ast self).2 in
  ∃ raw,
    (obtain W options module_name filename ast).2 = Some raw
    ∧ let tree := _postprocess_pyi W options raw in
      (∀ d, d ∈ CollectDependencies tree → is_Some (_modules self' !! d))
      ∧ content self' h
        = finished_tree W module_name tree
            (if bool_decide (CollectDependencies tree ≠ []) then
               LookupExternalTypes (<[module_name := tree]> (module_map self'))
                 (Some module_name) tree
             else tree).
Proof.
  intros Hw Hm. rewrite _load_file_miss by done.
  destruct (obtain W options module_name filename ast) as [evs [raw|]] eqn:Hob;
    [|done].
  cbv zeta. set (tree := _postprocess_pyi W options raw).
  set (self0 := with_events evs (with_concatenated None self)).
  assert (Hw0 : well_formed self0) by by apply (well_formed_same_registry self).
  assert (Hm0 : _modules self0 !! module_name = None) by done.
  pose proof (well_formed_staged module_name filename tree self0 Hw0 Hm0)
    as Hw1.
  set (self1 := staged module_name filename tree self0) in *.
  pose proof (_load_and_resolve_ast_dependencies_preserves
                (_import_name W options fuel) well_formed
                (_import_name_well_formed W options fuel)
                tree (Some module_name) self1 Hw1) as Hw2.
  pose proof (_load_and_resolve_ast_dependencies_extends
                (_import_name W options fuel)
                (_import_name_extends W options fuel)
                tree (Some module_name) self1) as Hext.
  pose proof (_load_and_resolve_ast_dependencies_registers W options fuel
                tree (Some module_name) self1) as Hresolved.
  destruct (_load_and_resolve_ast_dependencies _ _ _ _)
    as [[resolved|e|] self2]; simpl in Hw2, Hext |- *.
  2:{ by destruct (_modules self2 !! module_name). }
  2:{ done. }
  intros [= <-]. exists raw. split; [done|].
  destruct (Hresolved resolved self2 eq_refl) as [Hreg Hres]. split.
  - intros d Hd. destruct (Hreg d Hd) as [md Hmd].
    destruct (decide (d = module_name)) as [->|Hne].
    + rewrite lookup_alter_eq, Hmd. by eexists.
    + rewrite lookup_alter_ne by done. by eexists.
  - rewrite content_linked_new. f_equal.
    assert (Hstaged : _modules self2 !! module_name
                      = Some {| Mod.module_name := module_name;
                                Mod.filename := filename;
                                Mod.ast := length (heap self0);
                                Mod.dirty := true |}).
    { eapply lookup_weaken; [|apply Hext]. apply lookup_insert_eq. }
    assert (Htree : content self2 (length (heap self0)) = tree).
    { rewrite (content_extends self1 self2); [|apply Hext|].
      - apply content_staged_new.
      - unfold self1. simpl. rewrite length_app. simpl. lia. }
    pose proof (module_map_linked W module_name tree resolved self2 _
                  (λ k mk Hk, proj2 (proj1 Hw2 k mk Hk)) Hstaged) as Hmap.
    cbn [Mod.ast] in Hmap. rewrite Htree in Hmap.
    change (_postprocess_pyi W options raw) with tree.
    by rewrite Hmap.
Qed.

Lemma fresh_load_links_against_the_registry_witness :
  ∃ raw,
    (obtain Example.world Example.options "foo" "foo.pyi" None).2 = Some raw
    ∧ ∀ d, d ∈ CollectDependencies
                 (_postprocess_pyi Example.world Example.options raw) →
        is_Some
          (_modules
             (_load_file Example.world Example.options
                (_import_name Example.world Example.options 3)
                "foo" "foo.pyi" None Example.start).2 !! d).
Proof.
  destruct (fresh_load_links_against_the_registry Example.world
              Example.options 3 "foo" "foo.pyi" None Example.start 9)
    as (raw & Hraw & Hdeps & _).
  - apply (__init___well_formed Example.world Example.options). reflexivity.
  - reflexivity.
  - vm_compute. reflexivity.
  - exists raw. split; [exact Hraw|exact Hdeps].
Defined.

(** ** The sweep, run once and run again *)

#[global] Instance only_finishes_preorder : PreOrder only_finishes.
Proof.
  split.
  - intros self. split; [reflexivity|done].
  - intros s1 s2 s3 (Hs & Ht & Hc & Hh) (Hs' & Ht' & Hc' & Hh').
    split; [by etrans|]. split; [congruence|]. split; congruence.
Qed.

Lemma finish_if_dirty_only_finishes W entry :
  steps only_finishes (finish_if_dirty W entry).
Proof.
  destruct entry as [name module]. intros self.
  split; [apply finish_if_dirty_sweeps|].
  rewrite finish_if_dirty_eq. destruct (Mod.dirty module); [|done].
  destruct (verified W _) as [[]|e|]; simpl; by rewrite length_insert.
Qed.

Lemma for_each_all_clean W entries self :
  (∀ n m, (n, m) ∈ entries → Mod.dirty m = false) →
  for_each entries (finish_if_dirty W) self = (Ok tt, self).
Proof.
  induction entries as [|[n m] entries IH]; intros Hclean; [done|].
  cbn [for_each]. rewrite bind_eq, finish_if_dirty_eq.
  rewrite (Hclean n m) by left. apply IH. intros n' m' Hin.
  apply (Hclean n'). by right.
Qed.

Lemma sweep_loop_outcome W entries :
  NoDup entries.*1 →
  ∀ self,
    (∀ n m, (n, m) ∈ entries → _modules self !! n = Some m) →
    let out := for_each entries (finish_if_dirty W) self in
    (out.1 = Ok tt →
     ∀ n m, (n, m) ∈ entries →
       ∃ m', _modules out.2 !! n = Some m' ∧ Mod.dirty m' = false)
    ∧ (∀ e, out.1 = Raise e →
         ∃ n m, _modules out.2 !! n = Some m ∧ Mod.dirty m = true
                ∧ verified W (content out.2 (Mod.ast m)) = Raise e).
Proof.
  induction entries as [|[n m] entries IH]; intros Hnd self Hin.
  { simpl. split; [|done]. intros _ ? ? []%elem_of_nil. }
  rewrite fmap_cons in Hnd. apply NoDup_cons in Hnd as [Hn Hnd].
  assert (Hm : _modules self !! n = Some m) by (apply Hin; left).
  assert (Hrest : ∀ self',
            (∀ n', n' ≠ n → _modules self' !! n' = _modules self !! n') →
            ∀ n' m', (n', m') ∈ entries → _modules self' !! n' = Some m').
  { intros self' Hsame n' m' Hin'. rewrite Hsame; [apply Hin; by right|].
    intros ->. apply Hn. apply list_elem_of_fmap. by exists (n, m'). }
  cbn [for_each]. cbv zeta. rewrite bind_eq, finish_if_dirty_eq.
  destruct (Mod.dirty m) eqn:Hd.
  - destruct (verified W _) as [[]|e|] eqn:Hv.
    + set (self1 := cleaned n (filled (Mod.ast m) self)).
      destruct (IH Hnd self1) as [Hok Hraise].
      { apply Hrest. intros n' Hne. simpl. by rewrite lookup_alter_ne. }
      split; [|done].
      intros Hr n' m' [Heq|Hin']%elem_of_cons; [|by eapply Hok].
      inversion Heq; subst.
      eapply (sweeps_clean self1).
      * apply (steps_for_each sweeps entries (finish_if_dirty W)).
        apply finish_if_dirty_sweeps.
      * simpl. rewrite lookup_alter_eq, Hm. done.
      * done.
    + simpl. split; [done|]. intros e' [= <-]. exists n, m. done.
    + by apply verified_not_OutOfFuel in Hv.
  - destruct (IH Hnd self) as [Hok Hraise]; [by apply Hrest|].
    split; [|done].
    intros Hr n' m' [Heq|Hin']%elem_of_cons; [|by eapply Hok].
    inversion Heq; subst. eapply sweeps_clean; [|done|done].
    apply (steps_for_each sweeps entries (finish_if_dirty W)).
    apply finish_if_dirty_sweeps.
Qed.

(** X6.  The sweep changes dirty flags and tree contents only: names,
    files and tree objects of the registry stay, and so do the trace and
    the merged view.  On a registry without dirty modules it does
    nothing.  When it returns, no module is dirty, so sweeping again
    does nothing.  When it raises, the exception is a failed
    verification, and the module whose tree failed it is still dirty:
    its flag is cleared only after [_finish_ast] returned. *)
Theorem sweep_clears_flags_once W self :
  let out := _lookup_all_classes W self in
  only_finishes self out.2
  ∧ (all_clean self → out = (Ok tt, self))
  ∧ (out.1 = Ok tt →
     all_clean out.2 ∧ _lookup_all_classes W out.2 = (Ok tt, out.2))
  ∧ (∀ e, out.1 = Raise e →
       ∃ n m, _modules out.2 !! n = Some m ∧ Mod.dirty m = true
              ∧ verified W (content out.2 (Mod.ast m)) = Raise e
              ∧ ∃ v, e = InvariantViolation v).
Proof.
  cbv zeta.
  assert (Hclean : ∀ self0, all_clean self0 →
            _lookup_all_classes W self0 = (Ok tt, self0)).
  { intros self0 Hc. rewrite _lookup_all_classes_eq.
    apply for_each_all_clean. intros n m Hin%elem_of_map_to_list.
    by apply (Hc n). }
  assert (Hfin : only_finishes self (_lookup_all_classes W self).2).
  { rewrite _lookup_all_classes_eq.
    apply (steps_for_each only_finishes (map_to_list (_modules self))
             (finish_if_dirty W)).
    apply finish_if_dirty_only_finishes. }
  split; [exact Hfin|]. split; [apply Hclean|].
  destruct Hfin as [Hs _]. revert Hs. rewrite _lookup_all_classes_eq.
  intros Hs.
  destruct (sweep_loop_outcome W (map_to_list (_modules self)))
    with (self := self) as [Hok Hraise].
  { apply NoDup_fst_map_to_list. }
  { intros n m. by rewrite elem_of_map_to_list. }
  split.
  - intros Hr.
    assert (Hall : all_clean
                     (for_each (map_to_list (_modules self))
                        (finish_if_dirty W) self).2).
    { intros n m' Hn. destruct (_modules self !! n) as [m|] eqn:Hm.
      - destruct (Hok Hr n m) as (m'' & Hn'' & Hd).
        { by apply elem_of_map_to_list. }
        congruence.
      - destruct (Hs n) as [E|E]; rewrite E, Hm in Hn; done. }
    split; [exact Hall|by apply Hclean].
  - intros e He. destruct (Hraise e He) as (n & m & Hn & Hd & Hv).
    exists n, m. split; [done|]. split; [done|]. split; [done|].
    by eapply for_each_finish_raises.
Qed.

Lemma sweep_clears_flags_once_witness :
  all_clean (_lookup_all_classes Example.world Example.start).2
  ∧ _lookup_all_classes Example.world
      (_lookup_all_classes Example.world Example.start).2
    = (Ok tt, (_lookup_all_classes Example.world Example.start).2).
Proof.
  destruct (sweep_clears_flags_once Example.world Example.start)
    as (_ & _ & Hok & _).
  apply Hok. vm_compute. reflexivity.
Defined.

(** ** Resolving a tree that is not a module *)

Lemma for_each_finish_definitions W entries self x :
  definitions (content (for_each entries (finish_if_dirty W) self).2 x)
  = definitions (content self x).
Proof.
  revert self. induction entries as [|[n m] entries IH]; intros self; [done|].
  cbn [for_each]. rewrite bind_eq, finish_if_dirty_eq.
  destruct (Mod.dirty m); [|apply IH].
  destruct (verified W _) as [[]|e|]; simpl.
  - rewrite IH. apply (definitions_content_filled (Mod.ast m) self x).
  - apply definitions_content_filled.
  - apply definitions_content_filled.
Qed.

Lemma sweeps_handles self self' n m' :
  sweeps self self' → _modules self' !! n = Some m' →
  ∃ m, _modules self !! n = Some m ∧ Mod.ast m = Mod.ast m'.
Proof.
  intros Hs Hn. destruct (Hs n) as [E|E]; rewrite E in Hn; [eauto|].
  destruct (_modules self !! n) as [m|]; [|done].
  injection Hn as <-. eauto.
Qed.

Lemma sweeps_registered self self' n :
  sweeps self self' → is_Some (_modules self !! n) →
  is_Some (_modules self' !! n).
Proof.
  intros Hs [m Hm]. destruct (Hs n) as [E|E]; rewrite E, Hm; by eexists.
Qed.

(** X7.  [resolve_ast] resolves a tree "without adding it to our
    modules": the handle returned is the one of a new tree object that
    no registered module holds; the tree defines what the given tree
    defines after postprocessing; every module it depends on is
    registered; and both verifications hold of it. *)
Theorem resolve_ast_does_not_register W options fuel ast self h :
  well_formed self →
  (resolve_ast W options fuel ast self).1 = Ok h →
  let self' := (resolve_ast W options fuel ast self).2 in
  let tree := _postprocess_pyi W options ast in
  length (heap self) ≤ h < length (heap self')
  ∧ (∀ n m, _modules self' !! n = Some m → Mod.ast m ≠ h)
  ∧ (∀ d, d ∈ CollectDependencies tree → is_Some (_modules self' !! d))
  ∧ definitions (content self' h) = definitions tree
  ∧ VerifyLookup (content self' h) = true
  ∧ VerifyContainers W (content self' h) = true.
Proof.
  intros Hw. cbv zeta. unfold resolve_ast. rewrite bind_eq.
  set (tree := _postprocess_pyi W options ast).
  pose proof (_load_and_resolve_ast_dependencies_preserves
                (_import_name W options fuel) well_formed
                (_import_name_well_formed W options fuel)
                tree None self Hw) as Hw1.
  pose proof (_load_and_resolve_ast_dependencies_extends
                (_import_name W options fuel)
                (_import_name_extends W options fuel)
                tree None self) as Hext.
  pose proof (_load_and_resolve_ast_dependencies_registers W options fuel
                tree None self) as Hregs.
  destruct (_load_and_resolve_ast_dependencies _ _ _ _)
    as [[resolved|e|] self1]; simpl in Hw1, Hext |- *; [|done..].
  destruct (Hregs resolved self1 eq_refl) as [Hreg Hres]. clear Hregs.
  rewrite bind_eq.
  set (self2 := (new resolved self1).2).
  change (new resolved self1) with (Ok (length (heap self1)), self2).
  cbv beta iota. rewrite bind_eq, _lookup_all_classes_eq.
  pose proof (steps_for_each only_finishes (map_to_list (_modules self2))
                (finish_if_dirty W) (finish_if_dirty_only_finishes W) self2)
    as (Hs & _ & _ & Hlen).
  pose proof (for_each_finish_definitions W (map_to_list (_modules self2))
                self2 (length (heap self1))) as Hdefs.
  destruct (for_each _ _ self2) as [[[]|e|] self3]; simpl in Hs, Hlen, Hdefs;
    [|done..].
  cbv beta iota. rewrite bind_eq, _finish_ast_eq.
  destruct (verified W _) as [[]|e|] eqn:Hv; [|done..].
  unfold mret, M_ret. cbn [fst snd]. intros [= <-].
  assert (Hlen2 : length (heap self2) = S (length (heap self1))).
  { unfold self2. simpl. rewrite length_app. simpl. lia. }
  split.
  { simpl. rewrite length_insert, Hlen, length_app.
    destruct Hext as [_ _ Hh _]. apply prefix_length in Hh. simpl. lia. }
  split.
  { intros n m Hn. simpl in Hn.
    destruct (sweeps_handles self2 self3 n m Hs Hn) as (m0 & Hm0 & <-).
    destruct (proj1 Hw1 n m0 Hm0) as [_ Hlt]. intros Heq.
    rewrite Heq in Hlt. lia. }
  split.
  { intros d Hd. simpl. apply (sweeps_registered self2); [done|].
    by apply Hreg. }
  split.
  { rewrite definitions_content_filled, Hdefs.
    assert (Hnew : content self2 (length (heap self1)) = resolved).
    { unfold content, self2. simpl. apply list_lookup_total_correct.
      rewrite lookup_app_r by lia. by rewrite Nat.sub_diag. }
    rewrite Hnew, Hres. by case_bool_decide. }
  by apply verified_Ok in Hv.
Qed.

Lemma resolve_ast_does_not_register_witness :
  (∀ n m,
     _modules (resolve_ast Example.world Example.options 2
                 (Example.tree "x" ["X"] ["d1.X"; "X"]) Example.start).2
       !! n = Some m →
     Mod.ast m ≠ 6)
  ∧ VerifyLookup
      (content (resolve_ast Example.world Example.options 2
                  (Example.tree "x" ["X"] ["d1.X"; "X"]) Example.start).2 6)
    = true.
Proof.
  destruct (resolve_ast_does_not_register Example.world Example.options 2
              (Example.tree "x" ["X"] ["d1.X"; "X"]) Example.start 6)
    as (_ & Hfree & _ & _ & Hbound & _).
  - apply (__init___well_formed Example.world Example.options). reflexivity.
  - vm_compute. reflexivity.
  - split; [exact Hfree|exact Hbound].
Defined.

(** ** Names relative to the base module *)

Lemma split_nonempty sep s : PyStr.split sep s ≠ [].
Proof.
  destruct s as [|c s]; simpl; [done|].
  destruct (decide (c = sep)); [done|]. by destruct (PyStr.split sep s).
Qed.

(** [sep.join(s.split(sep))] is [s]. *)
Lemma join_split sep s :
  PyStr.join (String sep EmptyString) (PyStr.split sep s) = s.
Proof.
  unfold PyStr.join. induction s as [|c s IH]; simpl; [done|].
  pose proof (split_nonempty sep s) as Hne.
  destruct (decide (c = sep)) as [->|Hc].
  - destruct (PyStr.split sep s) as [|h t]; [done|].
    simpl in IH |- *. by rewrite IH.
  - destruct (PyStr.split sep s) as [|h t]; [done|].
    simpl in IH |- *. destruct t as [|h' t]; simpl in *; by rewrite <-IH.
Qed.

Lemma split_no_sep sep s :
  PyStr.rpartition sep s = None → PyStr.split sep s = [s].
Proof.
  induction s as [|c s IH]; simpl; [done|].
  destruct (PyStr.rpartition sep s) as [[a b]|]; [done|].
  destruct (decide (c = sep)); [done|]. intros _. by rewrite IH.
Qed.

Lemma split_rpartition sep s a b :
  PyStr.rpartition sep s = Some (a, b) →
  PyStr.split sep s = PyStr.split sep a ++ [b].
Proof.
  revert a. induction s as [|c s IH]; intros a; simpl; [done|].
  destruct (PyStr.rpartition sep s) as [[a' b']|] eqn:Hr.
  - intros [= <- <-]. rewrite (IH a' eq_refl). simpl.
    pose proof (split_nonempty sep a') as Hne.
    destruct (decide (c = sep)); [done|].
    by destruct (PyStr.split sep a') as [|h t].
  - destruct (decide (c = sep)) as [->|]; [|done].
    intros [= <- <-]. simpl. by rewrite split_no_sep.
Qed.

Lemma string_app_assoc (a b c : string) : (a +:+ b) +:+ c = a +:+ b +:+ c.
Proof.
  induction a as [|ch a IH]; [done|].
  change (String ch ((a +:+ b) +:+ c) = String ch (a +:+ b +:+ c)).
  by rewrite IH.
Qed.

Lemma join_snoc sep l x :
  l ≠ [] →
  PyStr.join sep (l ++ [x]) = PyStr.join sep l +:+ sep +:+ x.
Proof.
  unfold PyStr.join. induction l as [|h t IH]; [done|]. intros _.
  destruct t as [|h' t]; [done|].
  change (String.concat sep ((h :: h' :: t) ++ [x]))
    with (h +:+ sep +:+ String.concat sep ((h' :: t) ++ [x])).
  rewrite IH by done.
  change (String.concat sep (h :: h' :: t))
    with (h +:+ sep +:+ String.concat sep (h' :: t)).
  by rewrite !string_app_assoc.
Qed.

Lemma slice_to_removelast {A} (l : list A) :
  PyStr.slice_to l (-1) = removelast l.
Proof. exact (slice_to_drop_last l 1%Z ltac:(lia)). Qed.

(** X8.  The name a relative import asks for, read off the base module's
    name: for a base [parent.last], [import_relative_name] of [name] is
    [import_name] of [parent.name] and [import_relative] of level 1 is
    [import_name] of [parent]; for a base without a dot they are
    [import_name] of [name] and of the empty name.  Without a base
    module [import_relative_name] raises [ValueError] and leaves the
    loader as it was.  Splitting a name at the dots and joining the
    components gives the name back. *)
Theorem relative_names_are_siblings W options fuel self :
  (∀ base parent last name,
     PyStr.rpartition "." base = Some (parent, last) →
     import_relative_name W options (Some base) fuel name self
     = import_name W options fuel (parent +:+ "." +:+ name) self
     ∧ import_relative W options (Some base) fuel 1 self
       = import_name W options fuel parent self)
  ∧ (∀ base name,
       PyStr.rpartition "." base = None →
       import_relative_name W options (Some base) fuel name self
       = import_name W options fuel name self
       ∧ import_relative W options (Some base) fuel 1 self
         = import_name W options fuel "" self)
  ∧ (∀ name,
       ∃ msg, import_relative_name W options None fuel name self
              = (Raise (ValueError msg), self))
  ∧ (∀ module_name, PyStr.join "." (PyStr.split "." module_name) = module_name).
Proof.
  assert (Hlast : ∀ l : list string,
            PyStr.slice_to l (- 1) = removelast l).
  { intros l. exact (slice_to_drop_last l 1%Z ltac:(lia)). }
  split; [|split; [|split]].
  - intros base parent last name Hr.
    unfold import_relative_name, import_relative, import_name.
    rewrite bool_decide_eq_true_2 by lia.
    rewrite (slice_to_removelast (PyStr.split "." base)), Hlast.
    rewrite (split_rpartition _ _ _ _ Hr), removelast_last.
    rewrite join_snoc by apply split_nonempty.
    by rewrite (join_split "." parent).
  - intros base name Hr.
    unfold import_relative_name, import_relative, import_name.
    rewrite bool_decide_eq_true_2 by lia.
    rewrite (slice_to_removelast (PyStr.split "." base)), Hlast.
    by rewrite (split_no_sep _ _ Hr).
  - intros name. by eexists.
  - intros module_name. apply (join_split "." module_name).
Qed.

Lemma relative_names_are_siblings_witness :
  import_relative_name Example.world Example.options (Some "a.b.c") 2 "d"
    Example.start
  = import_name Example.world Example.options 2 "a.b.d" Example.start
  ∧ import_relative_name Example.world Example.options (Some "pkg") 2 "d1"
      Example.start
    = import_name Example.world Example.options 2 "d1" Example.start.
Proof.
  destruct (relative_names_are_siblings Example.world Example.options 2
              Example.start) as (Hdotted & Hplain & _).
  split.
  - apply (Hdotted "a.b.c" "a.b" "c" "d"). reflexivity.
  - apply (Hplain "pkg" "d1"). reflexivity.
Defined.

(** ** What a load leaves alone *)

(** X9.  A name without path separator is answered with [None] exactly
    when no tier has a source for it; then the import has asked every
    tier and changed nothing else: the registry, the tree objects and
    the merged view are what they were.  A file found by the search
    that the parser rejects is not registered either: the load raises
    the parser's error having recorded the call to the parser, and the
    registry and the tree objects are what they were. *)
Theorem nothing_found_changes_nothing W options fuel module_name self :
  PyStr.contains PyStr.os_sep module_name = false →
  ((_import_name W options (S fuel) module_name self).1 = Ok None
   ↔ (locate W options module_name).2 = None)
  ∧ ((locate W options module_name).2 = None →
     _import_name W options (S fuel) module_name self
     = (Ok None, with_events (locate W options module_name).1 self))
  ∧ (∀ filename,
       _modules self !! module_name = None →
       ParsePyTD W filename module_name (python_version options) = None →
       _load_file W options (_import_name W options fuel)
         module_name filename None self
       = (Raise (ParseError filename),
          with_events [parsed filename module_name]
            (with_concatenated None self))).
Proof.
  intros Hsep.
  assert (Hnone : (locate W options module_name).2 = None →
            _import_name W options (S fuel) module_name self
            = (Ok None, with_events (locate W options module_name).1 self)).
  { intros Hloc. simpl. rewrite _import_name_body_found by done.
    destruct (locate W options module_name) as [evs found].
    simpl in Hloc. subst found. by rewrite load_found_none. }
  split; [|split; [exact Hnone|]].
  - split.
    + intros Hr.
      by destruct (proj2 (_import_name_errors W options (S fuel))
                     module_name self Hr).
    + intros Hloc. by rewrite Hnone.
  - intros filename Hm Hparse. rewrite _load_file_miss by done.
    simpl. by rewrite Hparse.
Qed.

Lemma nothing_found_changes_nothing_witness :
  _import_name Example.world Example.options 1 "nowhere" Example.start
  = (Ok None,
     with_events (locate Example.world Example.options "nowhere").1
       Example.start).
Proof.
  destruct (nothing_found_changes_nothing Example.world Example.options 0
              "nowhere" Example.start) as (_ & Hnone & _).
  - reflexivity.
  - apply Hnone. vm_compute. reflexivity.
Defined.

(** X10.  A load only adds: whatever its outcome, [_import_name] leaves
    every registered module registered as the same object, with its
    source, its tree object and its dirty flag; the tree objects there
    were keep their content; no call to a collaborator is forgotten;
    and every module it adds is dirty and holds a tree object that
    exists.  So a handle obtained before a load denotes the same tree
    after it. *)
Theorem loads_only_add W options fuel module_name self :
  let self' := (_import_name W options fuel module_name self).2 in
  (∀ n m, _modules self !! n = Some m → _modules self' !! n = Some m)
  ∧ (∀ h, h < length (heap self) → content self' h = content self h)
  ∧ length (heap self) ≤ length (heap self')
  ∧ trace self `suffix_of` trace self'
  ∧ (∀ n m, _modules self' !! n = Some m → _modules self !! n = None →
       Mod.dirty m = true ∧ Mod.ast m < length (heap self')).
Proof.
  cbv zeta.
  destruct (_import_name_extends W options fuel module_name self)
    as [Hmod Hnew Hheap Htrace].
  split; [|split; [|split; [|split]]].
  - intros n m Hn. by eapply lookup_weaken.
  - intros h Hh. by apply content_extends.
  - by apply prefix_length.
  - done.
  - done.
Qed.

Lemma loads_only_add_witness :
  _modules (_import_name Example.world Example.options 3 "foo"
              Example.start).2 !! "typing"
  = Some {| Mod.module_name := "typing"; Mod.filename := "pytd:typing";
            Mod.ast := 1; Mod.dirty := true |}.
Proof.
  destruct (loads_only_add Example.world Example.options 3 "foo"
              Example.start) as [Hkept _].
  apply Hkept. reflexivity.
Defined.

(** ** Inside one directory of the search path *)

(** X11.  Without a remap table, the first directory of the search path
    answers in this order: the package initializer [__init__.pyi] when it
    is a file, which is loaded through the parser; else the directory
    itself, which is loaded as an empty module under the initializer's
    name, its tree being [EmptyModule] and not one read by the parser,
    so it shadows a module file of the same name; else the module file.
    The later directories are not probed in any of these cases. *)
Theorem first_search_directory_answers W options fuel module_name
    module_name_split searchdir searchdirs self :
  imports_map options = None →
  pythonpath options = searchdir :: searchdirs →
  let rec := _import_name W options fuel in
  let path := PyStr.os_path_join searchdir module_name_split in
  let init := PyStr.os_path_join path ["__init__"] +:+ ".pyi" in
  let file := path +:+ ".pyi" in
  (path_exists W init = true → path_isdir W init = false →
   _import_file W options rec module_name module_name_split self
   = returning_some
       (_load_file W options rec module_name init None
          (with_events [probed_isdir init; probed_exists init] self)))
  ∧ (path_exists W init = false → path_isdir W path = true →
     _import_file W options rec module_name module_name_split self
     = returning_some
         (_load_file W options rec module_name
            (PyStr.os_path_join path ["__init__.pyi"])
            (Some (EmptyModule module_name))
            (with_events [probed_isdir path; probed_exists init] self)))
  ∧ (path_exists W init = false → path_isdir W path = false →
     path_exists W file = true → path_isdir W file = false →
     _import_file W options rec module_name module_name_split self
     = returning_some
         (_load_file W options rec module_name file None
            (with_events [probed_isdir file; probed_exists file;
                          probed_isdir path; probed_exists init] self))).
Proof.
  intros Hmap Hpath. cbv zeta. unfold _import_file.
  rewrite Hpath, _import_file_in_found.
  cbn [fmap list_fmap first_hit]. unfold in_directory, pyi_source, on_disk.
  rewrite Hmap. split; [|split].
  - intros Hex Hdir. by rewrite Hex, Hdir, load_found_some.
  - intros Hex Hdir. by rewrite Hex, Hdir, load_found_some.
  - intros Hex Hdir Hex' Hdir'.
    by rewrite Hex, Hdir, Hex', Hdir', load_found_some.
Qed.

Lemma first_search_directory_answers_witness :
  _import_file Example.world Example.options
    (_import_name Example.world Example.options 1) "pkg" ["pkg"] Example.start
  = returning_some
      (_load_file Example.world Example.options
         (_import_name Example.world Example.options 1) "pkg"
         "pkg/__init__.pyi" (Some (EmptyModule "pkg"))
         (with_events [probed_isdir "pkg"; probed_exists "pkg/__init__.pyi"]
            Example.start)).
Proof.
  destruct (first_search_directory_answers Example.world Example.options 1
              "pkg" ["pkg"] "" [] Example.start) as (_ & Hdir & _).
  - reflexivity.
  - reflexivity.
  - apply Hdir; reflexivity.
Defined.
